(** * NEODatabase: linking, lookup and query over near-Earth objects

    A shallow embedding of [database.py] and of the loops of [extract.py].
    Python objects are mutable and shared by reference, so NEOs and close
    approaches live in a store and the collections handed to the database are
    lists of references. *)

From stdpp Require Import gmap strings list functions.
From Stdlib Require Import Ascii String List QArith Sorted Permutation.
Local Open Scope string_scope.
Local Open Scope list_scope.

(** ** Strings and [str.lower]

    A Python [str] is represented by the bytes of its UTF-8 encoding, so that
    [==] on [str] is equality of strings and [""] is the empty string.
    [str.lower] is a built-in driven by the Unicode tables.  It is a parameter
    of the development, of which one fact is used: it maps the empty string,
    and no other string, to the empty string. *)

Class StrLower : Type := {
  lower : string -> string;
  lower_empty_iff : forall s : string, lower s = "" <-> s = ""
}.

(** [str.lower] on strings of ASCII characters: the letters [A]..[Z] become
    [a]..[z] and every other character is kept.  The examples at the end of
    the file, whose strings are all ASCII, are computed with it. *)

Definition lower_ascii (c : ascii) : ascii :=
  let n := nat_of_ascii c in
  if (65 <=? n)%nat && (n <=? 90)%nat then ascii_of_nat (n + 32) else c.

Fixpoint ascii_lower (s : string) : string :=
  match s with
  | EmptyString => EmptyString
  | String c s' => String (lower_ascii c) (ascii_lower s')
  end.

Definition ascii_case : StrLower :=
  {| lower := ascii_lower;
     lower_empty_iff :=
       ltac:(intros [|c s]; split; first [reflexivity | discriminate]) |}.

(** ** Numbers: a Python float is a rational or the not-a-number sentinel *)

Inductive number : Type :=
  | Num (q : Q)
  | NaN.

(** Python's [<] on floats: every comparison with NaN is false. *)
Definition number_lt (x y : number) : bool :=
  match x, y with
  | Num p, Num q => negb (Qle_bool q p)
  | _, _ => false
  end.

(** ** Date-times: [datetime.date()] keeps the calendar day *)

Definition date : Type := (nat * nat * nat)%type.

Record datetime : Type := mk_datetime {
  dt_day : date;
  dt_hour : nat;
  dt_minute : nat
}.

Definition datetime_date (t : datetime) : date := dt_day t.

(** ** The entities of [models], as the database uses them *)

Abbreviation neo_ref := nat (only parsing).
Abbreviation ca_ref := nat (only parsing).

Module NearEarthObject.
(** Modelled from the spec: the class [NearEarthObject] of module [models],
    with the attributes the data model lists.  A name, when present, is never
    the empty string. *)
Record t : Type := mk {
  designation : string;
  name : option string;
  diameter : number;
  hazardous : bool;
  approaches : list ca_ref
}.

Definition append (a : ca_ref) (n : t) : t :=
  mk (designation n) (name n) (diameter n) (hazardous n) (approaches n ++ [a]).
End NearEarthObject.

Module CloseApproach.
(** Modelled from the spec: the class [CloseApproach] of module [models],
    with the attributes the data model lists. *)
Record t : Type := mk {
  designation : string;
  time : datetime;
  distance : number;
  velocity : number;
  neo : option neo_ref
}.

Definition set_neo (r : option neo_ref) (a : t) : t :=
  mk (designation a) (time a) (distance a) (velocity a) r.
End CloseApproach.

(** ** The object store *)

Record heap : Type := mk_heap {
  neo_at : neo_ref -> NearEarthObject.t;
  ca_at : ca_ref -> CloseApproach.t
}.

(** [approach.neo = r] *)
Definition assign_neo (a : ca_ref) (r : option neo_ref) (h : heap) : heap :=
  mk_heap (neo_at h) (<[a := CloseApproach.set_neo r (ca_at h a)]> (ca_at h)).

(** [n.approaches.append(a)] *)
Definition append_approach (n : neo_ref) (a : ca_ref) (h : heap) : heap :=
  mk_heap (<[n := NearEarthObject.append a (neo_at h n)]> (neo_at h)) (ca_at h).

(** ** Exceptions and results *)

Inductive exn : Type :=
  | ValueError (msg : string).

Definition exn_class (e : exn) : string :=
  match e with
  | ValueError _ => "ValueError"
  end.

Inductive outcome (A : Type) : Type :=
  | Return (a : A)
  | Raise (e : exn).
Arguments Return {A} a.
Arguments Raise {A} e.

(** ** The database object *)

Record NEODatabase : Type := mk_db {
  _neos : list neo_ref;
  _approaches : list ca_ref;
  _date_to_approaches : gmap date (list ca_ref);
  approaches_distance_sorted : option (list ca_ref);
  approaches_velocity_sorted : option (list ca_ref);
  neos_diameter_sorted : option (list neo_ref)
}.

(** [self._date_to_approaches[d].append(a)] on a [defaultdict(list)] *)
Definition index_date (d : date) (a : ca_ref) (self : NEODatabase) : NEODatabase :=
  mk_db (_neos self) (_approaches self)
        (<[d := default [] (_date_to_approaches self !! d) ++ [a]]>
           (_date_to_approaches self))
        (approaches_distance_sorted self) (approaches_velocity_sorted self)
        (neos_diameter_sorted self).

(** ** Queries with filters that may raise

    The generator of [query] once more, now for filters that can raise an
    exception of some type [E] instead of answering.  [all(...)] stops at the
    first filter that rejects or raises; an exception leaves the generator
    through [next] and finishes it. *)

Inductive answer (E : Type) : Type :=
  | Told (b : bool)
  | Threw (e : E).
Arguments Told {E} b.
Arguments Threw {E} e.

Definition raising_predicate (E : Type) : Type := heap -> ca_ref -> answer E.

(** What a call of [next] gives the caller. *)
Inductive signal (E : Type) : Type :=
  | Yield (a : ca_ref)
  | StopIteration
  | Propagate (e : E).
Arguments Yield {E} a.
Arguments StopIteration {E}.
Arguments Propagate {E} e.

Record raising_generator (E : Type) : Type := mk_rgen {
  rgen_filters : list (raising_predicate E);
  rgen_pending : list ca_ref
}.
Arguments mk_rgen {E} _ _.
Arguments rgen_filters {E} _.
Arguments rgen_pending {E} _.

(** ** The loaders of [extract.py]

    The loaders are modelled from the parsed content on: [load_neos] from the
    rows that [csv.DictReader] yields, each a dictionary from column name to
    value, and [load_approaches] from the dictionary that [json.load]
    returns, of which only the entry ["data"], a list of rows that are lists
    of values, is read.  Opening and parsing the files is not modelled.  The
    constructors of [models] are parameters that may raise. *)

Module Extract.

Inductive error (X : Type) : Type :=
  | KeyError (key : string)
  | IndexError
  | ConstructorError (x : X).
Arguments KeyError {X} key.
Arguments IndexError {X}.
Arguments ConstructorError {X} x.

Inductive result (X A : Type) : Type :=
  | Loaded (a : A)
  | Failed (e : error X).
Arguments Loaded {X A} a.
Arguments Failed {X A} e.

Section Loaders.
Context {V X NEO CA : Type}.

(** [NearEarthObject(designation, name=..., diameter=..., hazardous=...)] *)
Variable new_neo : V -> V -> V -> V -> X + NEO.

(** [CloseApproach(designation, time, distance, velocity)] *)
Variable new_approach : V -> V -> V -> V -> X + CA.

(** [row[key]] on a dictionary *)
Definition column (row : gmap string V) (key : string) : result X V :=
  match row !! key with
  | Some v => Loaded v
  | None => Failed (KeyError key)
  end.

(** [row[i]] on a list, for an index that is not negative *)
Definition item (row : list V) (i : nat) : result X V :=
  match row !! i with
  | Some v => Loaded v
  | None => Failed IndexError
  end.

(** The body of the loop of [load_neos]. *)
Definition neo_of_row (row : gmap string V) : result X NEO :=
  match column row "name" with
  | Failed e => Failed e
  | Loaded name =>
      match column row "diameter" with
      | Failed e => Failed e
      | Loaded diameter =>
          match column row "pha" with
          | Failed e => Failed e
          | Loaded hazardous =>
              match column row "pdes" with
              | Failed e => Failed e
              | Loaded pdes =>
                  match new_neo pdes name diameter hazardous with
                  | inl x => Failed (ConstructorError x)
                  | inr neo => Loaded neo
                  end
              end
          end
      end
  end.

(** The body of the loop of [load_approaches]. *)
Definition approach_of_row (row : list V) : result X CA :=
  match item row 0 with
  | Failed e => Failed e
  | Loaded des =>
      match item row 3 with
      | Failed e => Failed e
      | Loaded cd =>
          match item row 4 with
          | Failed e => Failed e
          | Loaded dist =>
              match item row 7 with
              | Failed e => Failed e
              | Loaded v_rel =>
                  match new_approach des cd dist v_rel with
                  | inl x => Failed (ConstructorError x)
                  | inr cad => Loaded cad
                  end
              end
          end
      end
  end.

(** [for row in rows: data_to_return.append(f(row))] *)
Fixpoint load_rows {R B : Type} (f : R -> result X B) (rows : list R)
    (data_to_return : list B) : result X (list B) :=
  match rows with
  | [] => Loaded data_to_return
  | row :: rest =>
      match f row with
      | Failed e => Failed e
      | Loaded b => load_rows f rest (data_to_return ++ [b])
      end
  end.

Definition load_neos (rows : list (gmap string V)) : result X (list NEO) :=
  load_rows neo_of_row rows [].

Definition load_approaches (reader : gmap string (list (list V)))
    : result X (list CA) :=
  match reader !! "data" with
  | None => Failed (KeyError "data")
  | Some rows => load_rows approach_of_row rows []
  end.

End Loaders.
End Extract.

(** Membership in an explicit list, case by case. *)
Ltac list_cases H :=
  repeat (apply elem_of_cons in H as [-> | H]); [.. | now inversion H].

(** ** The database, for any [str.lower] *)

Section CaseFolding.
Context {str_lower : StrLower}.

(** *** Lookups *)

Definition get_neo_by_designation (self : NEODatabase) (h : heap)
    (designation : string) : option neo_ref :=
  List.find
    (fun x => String.eqb (lower (NearEarthObject.designation (neo_at h x)))
                         (lower designation))
    (_neos self).

Definition get_neo_by_name (self : NEODatabase) (h : heap)
    (name : option string) : option neo_ref :=
  match name with
  | None => None
  | Some s =>
      if String.eqb s "" then None
      else
        List.find
          (fun x =>
             match NearEarthObject.name (neo_at h x) with
             | None => false
             | Some nm => String.eqb (lower nm) (lower s)
             end)
          (_neos self)
  end.

(** *** Construction *)

Definition link_one (self : NEODatabase) (a : ca_ref) (h : heap)
    : outcome NEODatabase * heap :=
  let h1 :=
    assign_neo a
      (get_neo_by_designation self h (CloseApproach.designation (ca_at h a))) h in
  match CloseApproach.neo (ca_at h1 a) with
  | None => (Raise (ValueError "No NEO found for this approach."), h1)
  | Some n =>
      let h2 := append_approach n a h1 in
      (Return (index_date (datetime_date (CloseApproach.time (ca_at h2 a))) a self),
       h2)
  end.

Fixpoint link_all (self : NEODatabase) (todo : list ca_ref) (h : heap)
    : outcome NEODatabase * heap :=
  match todo with
  | [] => (Return self, h)
  | a :: rest =>
      match link_one self a h with
      | (Return self', h') => link_all self' rest h'
      | (Raise e, h') => (Raise e, h')
      end
  end.

Definition __init__ (neos : list neo_ref) (approaches : list ca_ref) (h : heap)
    : outcome NEODatabase * heap :=
  let self := mk_db neos approaches ∅ None None None in
  link_all self (_approaches self) h.

(** *** The orderings method

    [sorted(xs, key=k)] is a stable sort that compares keys with [<] only.
    For keys that [<] orders totally the stable result is unique and the
    insertion below computes it; with a NaN key Python's result depends on the
    comparisons its merge sort happens to make, which is not reproduced. *)

Section Sorted.
Context {A : Type} (key : A -> number).

Fixpoint insert_by (x : A) (l : list A) : list A :=
  match l with
  | [] => [x]
  | y :: l' =>
      if number_lt (key x) (key y) then x :: y :: l' else y :: insert_by x l'
  end.

Definition sorted (l : list A) : list A :=
  fold_left (fun acc x => insert_by x acc) l [].
End Sorted.

Definition __post__init__ (self : NEODatabase) (h : heap) : NEODatabase :=
  mk_db (_neos self) (_approaches self) (_date_to_approaches self)
        (Some (sorted (fun x => CloseApproach.distance (ca_at h x)) (_approaches self)))
        (Some (sorted (fun x => CloseApproach.velocity (ca_at h x)) (_approaches self)))
        (Some (sorted (fun x => NearEarthObject.diameter (neo_at h x)) (_neos self))).

(** *** Queries

    A filter is a callable on a close approach; it may read the approach and,
    through [approach.neo], the linked NEO.  [query] is a generator function:
    calling it only creates a generator object, whose frame holds the filters
    and the position reached in [self._approaches]. *)

Definition predicate : Type := heap -> ca_ref -> bool.

Record generator : Type := mk_gen {
  gen_filters : list predicate;
  gen_pending : list ca_ref
}.

Definition query (self : NEODatabase) (filters : list predicate) : generator :=
  mk_gen filters (_approaches self).

(** Run the loop body up to the next [yield]; [None] is [StopIteration]. *)
Fixpoint resume (h : heap) (filters : list predicate) (pending : list ca_ref)
    : option ca_ref * list ca_ref :=
  match pending with
  | [] => (None, [])
  | approach :: rest =>
      if forallb (fun f => f h approach) filters then (Some approach, rest)
      else resume h filters rest
  end.

Definition next (h : heap) (g : generator) : option ca_ref * generator :=
  let '(r, rest) := resume h (gen_filters g) (gen_pending g) in
  (r, mk_gen (gen_filters g) rest).

(** [list(g)]: call [next] until [StopIteration]. *)
Fixpoint collect (fuel : nat) (h : heap) (g : generator) : list ca_ref :=
  match fuel with
  | O => []
  | S fuel' =>
      match next h g with
      | (Some a, g') => a :: collect fuel' h g'
      | (None, _) => []
      end
  end.

Definition to_list (h : heap) (g : generator) : list ca_ref :=
  collect (S (length (gen_pending g))) h g.

(** Two generators consumed in turns by one caller. *)





(** ** Vocabulary of the statements below *)

(** Two stores that give every object the same designation. *)
Definition same_designations (h h' : heap) : Prop :=
  (forall n, NearEarthObject.designation (neo_at h' n)
             = NearEarthObject.designation (neo_at h n)) /\
  (forall a, CloseApproach.designation (ca_at h' a)
             = CloseApproach.designation (ca_at h a)).

(** The NEO that the loop resolves an approach to. *)
Definition target (self : NEODatabase) (h : heap) (a : ca_ref) : option neo_ref :=
  get_neo_by_designation self h (CloseApproach.designation (ca_at h a)).

(** The message of the constructor's exception. *)
Definition no_neo_message : string := "No NEO found for this approach.".

(** What a store holds once the approaches of [done] have been linked. *)
Definition linked_neo (self : NEODatabase) (h : heap) (done : list ca_ref)
    (n : neo_ref) : NearEarthObject.t :=
  let o := neo_at h n in
  NearEarthObject.mk
    (NearEarthObject.designation o) (NearEarthObject.name o)
    (NearEarthObject.diameter o) (NearEarthObject.hazardous o)
    (NearEarthObject.approaches o
       ++ List.filter (fun a => bool_decide (target self h a = Some n)) done).

(** What an approach object looks like once the approaches of [done] have
    been linked. *)
Definition linked_ca (self : NEODatabase) (h : heap) (done : list ca_ref)
    (a : ca_ref) : CloseApproach.t :=
  if bool_decide (a ∈ done)
  then CloseApproach.set_neo (target self h a) (ca_at h a)
  else ca_at h a.

(** Some NEO of the collection has the approach's designation, up to case. *)
Definition has_match (neos : list neo_ref) (h : heap) (a : ca_ref) : Prop :=
  exists n, n ∈ neos /\
    lower (NearEarthObject.designation (neo_at h n))
    = lower (CloseApproach.designation (ca_at h a)).

(** The precondition of the constructor. *)
Definition unlinked (neos : list neo_ref) (approaches : list ca_ref) (h : heap)
    : Prop :=
  (forall n, n ∈ neos -> NearEarthObject.approaches (neo_at h n) = []) /\
  (forall a, a ∈ approaches -> CloseApproach.neo (ca_at h a) = None).

(** The instance as [__init__] has it before the loop starts. *)
Definition fresh_db (neos : list neo_ref) (approaches : list ca_ref) : NEODatabase :=
  mk_db neos approaches ∅ None None None.

(** An approach passes when every filter accepts it. *)
Definition passes (h : heap) (filters : list predicate) (a : ca_ref) : bool :=
  forallb (fun f => f h a) filters.




(** ** A small data set

    Four NEOs: Eros, two objects without a name, and an object whose
    designation and name repeat earlier ones in another case.  Three
    approaches of the first three, and one of an object that is not in the
    data. *)

Definition eros : NearEarthObject.t :=
  NearEarthObject.mk "433" (Some "Eros") (Num (1684 # 100)) false [].

Definition unnamed : NearEarthObject.t :=
  NearEarthObject.mk "2000 XY" None NaN false [].

Definition blank : NearEarthObject.t :=
  NearEarthObject.mk "2020 ab" None NaN false [].

Definition shouting : NearEarthObject.t :=
  NearEarthObject.mk "2020 AB" (Some "EROS") (Num 1) true [].

Definition approach_of (designation : string) (month : nat) (distance velocity : Q)
    : CloseApproach.t :=
  CloseApproach.mk designation (mk_datetime (2020, month, 1)%nat 0 0)
                   (Num distance) (Num velocity) None.

Definition example_heap : heap :=
  mk_heap
    (fun r => match r with
              | 0%nat => eros
              | 1%nat => unnamed
              | 2%nat => blank
              | _ => shouting
              end)
    (fun r => match r with
              | 0%nat => approach_of "433" 1 (3 # 10) 5
              | 1%nat => approach_of "2000 xy" 6 (1 # 10) 20
              | 2%nat => approach_of "2020 Ab" 7 (2 # 10) 11
              | _ => approach_of "does-not-exist" 9 1 1
              end).



(** ** More vocabulary: dates *)

(** The calendar day of an approach, [approach.time.date()]. *)
Definition date_of (h : heap) (a : ca_ref) : date :=
  datetime_date (CloseApproach.time (ca_at h a)).

(** The approaches of a list that fall on a day, in the order of the list. *)
Definition on_date (h : heap) (d : date) (l : list ca_ref) : list ca_ref :=
  List.filter (fun a => bool_decide (date_of h a = d)) l.

(** Two stores that differ at most in the links: every attribute other than
    [approach.neo] and [neo.approaches] is the same. *)
Definition same_attributes (h h' : heap) : Prop :=
  (forall n,
     NearEarthObject.designation (neo_at h' n) = NearEarthObject.designation (neo_at h n) /\
     NearEarthObject.name (neo_at h' n) = NearEarthObject.name (neo_at h n) /\
     NearEarthObject.diameter (neo_at h' n) = NearEarthObject.diameter (neo_at h n) /\
     NearEarthObject.hazardous (neo_at h' n) = NearEarthObject.hazardous (neo_at h n)) /\
  (forall a,
     CloseApproach.designation (ca_at h' a) = CloseApproach.designation (ca_at h a) /\
     CloseApproach.time (ca_at h' a) = CloseApproach.time (ca_at h a) /\
     CloseApproach.distance (ca_at h' a) = CloseApproach.distance (ca_at h a) /\
     CloseApproach.velocity (ca_at h' a) = CloseApproach.velocity (ca_at h a)).

(** *** Queries with filters that may raise *)

(** [all(f(approach) for f in filters)] *)
Fixpoint all_answers {E : Type} (h : heap) (filters : list (raising_predicate E))
    (approach : ca_ref) : answer E :=
  match filters with
  | [] => Told true
  | f :: rest =>
      match f h approach with
      | Told true => all_answers h rest approach
      | Told false => Told false
      | Threw e => Threw e
      end
  end.

Definition query_raising {E : Type} (self : NEODatabase)
    (filters : list (raising_predicate E)) : raising_generator E :=
  mk_rgen filters (_approaches self).

Fixpoint resume_raising {E : Type} (h : heap) (filters : list (raising_predicate E))
    (pending : list ca_ref) : signal E * list ca_ref :=
  match pending with
  | [] => (StopIteration, [])
  | approach :: rest =>
      match all_answers h filters approach with
      | Told true => (Yield approach, rest)
      | Told false => resume_raising h filters rest
      | Threw e => (Propagate e, [])
      end
  end.


(** A filter that always answers, seen as one that may raise. *)
Definition never_raises {E : Type} (p : predicate) : raising_predicate E :=
  fun h a => Told (p h a).

(** ** More vocabulary: orderings *)

(** A number that is not the not-a-number sentinel. *)
Definition is_known (x : number) : Prop :=
  match x with
  | Num _ => True
  | NaN => False
  end.

(** The key of [x] is the number [k]. *)
Definition key_is {A : Type} (key : A -> number) (k : Q) (x : A) : bool :=
  match key x with
  | Num q => Qeq_bool q k
  | NaN => false
  end.

(** [l'] lists [l] in ascending order of [key], elements with equal keys in
    the order they have in [l]: no element is smaller than one before it, and
    for each key value the elements with that key are those of [l], in the
    same order. *)
Definition ascending_stable {A : Type} (key : A -> number) (l l' : list A) : Prop :=
  StronglySorted (fun x y => number_lt (key y) (key x) = false) l' /\
  forall k, List.filter (key_is key k) l' = List.filter (key_is key k) l.


(** * Properties *)

(** ** Case folding *)

Lemma lower_empty (s : string) : lower s = "" -> s = "".
Proof. apply lower_empty_iff. Qed.

Lemma lower_nil : lower "" = "".
Proof. now apply lower_empty_iff. Qed.

(** ** First match in a list *)

Lemma find_first {A : Type} (p : A -> bool) (l : list A) (x : A) :
  List.find p l = Some x <->
  exists pre post, l = pre ++ x :: post /\ p x = true /\
                   forall y, y ∈ pre -> p y = false.
Proof.
  split.
  - induction l as [|y l IH]; simpl; [discriminate|].
    destruct (p y) eqn:Hy.
    + intros [= ->]. exists [], l. repeat split; [assumption|].
      intros z Hz. inversion Hz.
    + intros Hf. destruct (IH Hf) as (pre & post & -> & Hx & Hpre).
      exists (y :: pre), post. repeat split; [assumption|].
      intros z Hz. apply elem_of_cons in Hz as [-> | Hz]; auto.
  - intros (pre & post & -> & Hx & Hpre).
    induction pre as [|y pre IH]; simpl.
    + now rewrite Hx.
    + rewrite (Hpre y) by (left). apply IH.
      intros z Hz. apply Hpre. now right.
Qed.

Lemma find_absent {A : Type} (p : A -> bool) (l : list A) :
  List.find p l = None <-> forall y, y ∈ l -> p y = false.
Proof.
  induction l as [|y l IH]; simpl.
  - split; [intros _ z Hz; inversion Hz | reflexivity].
  - destruct (p y) eqn:Hy.
    + split; [discriminate|]. intros H. rewrite (H y) in Hy by left. discriminate.
    + rewrite IH. split.
      * intros H z Hz. apply elem_of_cons in Hz as [-> | Hz]; auto.
      * intros H z Hz. apply H. now right.
Qed.

Lemma find_agree {A : Type} (p q : A -> bool) (l : list A) :
  (forall x, p x = q x) -> List.find p l = List.find q l.
Proof.
  intros H. induction l as [|y l IH]; simpl; [reflexivity|].
  rewrite H, IH. reflexivity.
Qed.

(** ** Lookup by designation reads the NEO list and the designations only *)

Lemma get_neo_by_designation_stable self self' h h' d :
  _neos self' = _neos self ->
  same_designations h h' ->
  get_neo_by_designation self' h' d = get_neo_by_designation self h d.
Proof.
  intros Hn [Hd _]. unfold get_neo_by_designation. rewrite Hn.
  apply find_agree. intros x. now rewrite Hd.
Qed.

Lemma get_neo_by_designation_Some self h d n :
  get_neo_by_designation self h d = Some n <->
  exists pre post, _neos self = pre ++ n :: post /\
    lower (NearEarthObject.designation (neo_at h n)) = lower d /\
    forall m, m ∈ pre ->
      lower (NearEarthObject.designation (neo_at h m)) <> lower d.
Proof.
  unfold get_neo_by_designation. rewrite find_first.
  split; intros (pre & post & E & Hn & Hpre); exists pre, post;
    (split; [exact E|]); split.
  - now apply String.eqb_eq.
  - intros m Hm. apply String.eqb_neq. now apply Hpre.
  - now apply String.eqb_eq.
  - intros m Hm. apply String.eqb_neq. now apply Hpre.
Qed.

Lemma get_neo_by_designation_None self h d :
  get_neo_by_designation self h d = None <->
  forall m, m ∈ _neos self ->
    lower (NearEarthObject.designation (neo_at h m)) <> lower d.
Proof.
  unfold get_neo_by_designation. rewrite find_absent.
  split; intros H m Hm; apply String.eqb_neq; now apply H.
Qed.

(** ** The linking loop *)

Lemma link_one_eq self a h :
  link_one self a h =
  match target self h a with
  | None => (Raise (ValueError no_neo_message), assign_neo a None h)
  | Some n =>
      (Return (index_date (datetime_date (CloseApproach.time (ca_at h a))) a self),
       append_approach n a (assign_neo a (Some n) h))
  end.
Proof.
  unfold link_one, target. simpl. rewrite fn_lookup_insert. simpl.
  destruct (get_neo_by_designation self h _); reflexivity.
Qed.

Lemma same_designations_link (h : heap) (n a : nat) :
  same_designations h (append_approach n a (assign_neo a (Some n) h)).
Proof.
  split; intros x; simpl.
  - destruct (decide (n = x)) as [->|Hne].
    + now rewrite fn_lookup_insert.
    + now rewrite fn_lookup_insert_ne.
  - destruct (decide (a = x)) as [->|Hne].
    + now rewrite fn_lookup_insert.
    + now rewrite fn_lookup_insert_ne.
Qed.

Lemma target_stable self self' h h' a :
  _neos self' = _neos self -> same_designations h h' ->
  target self' h' a = target self h a.
Proof.
  intros Hn Hd. unfold target. destruct Hd as [Hd1 Hd2]. rewrite Hd2.
  apply get_neo_by_designation_stable; [assumption | now split].
Qed.

Lemma link_all_Return todo :
  forall self h self' h',
    link_all self todo h = (Return self', h') ->
    _neos self' = _neos self /\
    _approaches self' = _approaches self /\
    approaches_distance_sorted self' = approaches_distance_sorted self /\
    approaches_velocity_sorted self' = approaches_velocity_sorted self /\
    neos_diameter_sorted self' = neos_diameter_sorted self /\
    (forall a, a ∈ todo -> is_Some (target self h a)) /\
    (forall n, neo_at h' n = linked_neo self h todo n) /\
    (forall a, ca_at h' a = linked_ca self h todo a).
Proof.
  induction todo as [|a rest IH]; intros self h self' h'; simpl.
  - intros [= -> ->]. repeat split.
    + intros a Ha. inversion Ha.
    + intros n. unfold linked_neo. simpl. rewrite app_nil_r.
      now destruct (neo_at h' n).
  - rewrite link_one_eq. destruct (target self h a) as [n|] eqn:Ht; [|discriminate].
    set (self1 := index_date _ a self). set (h2 := append_approach n a _).
    intros Hrun. destruct (IH _ _ _ _ Hrun) as (E1 & E2 & E3 & E4 & E5 & Hsome & Hneo & Hca).
    assert (Hstable : forall b, target self1 h2 b = target self h b).
    { intros b. apply target_stable; [reflexivity | apply same_designations_link]. }
    repeat split; try assumption.
    + intros b Hb. apply elem_of_cons in Hb as [-> | Hb].
      * rewrite Ht. eauto.
      * rewrite <- Hstable. now apply Hsome.
    + intros m. rewrite Hneo. unfold linked_neo. simpl.
      rewrite (List.filter_ext _ (fun b => bool_decide (target self h b = Some m)))
        by (intros b; now rewrite Hstable).
      rewrite Ht. destruct (decide (n = m)) as [->|Hne].
      * rewrite fn_lookup_insert. simpl.
        rewrite bool_decide_eq_true_2 by reflexivity.
        now rewrite <- app_assoc.
      * rewrite fn_lookup_insert_ne by assumption.
        rewrite bool_decide_eq_false_2 by congruence. reflexivity.
    + intros b. rewrite Hca. unfold linked_ca. rewrite Hstable. simpl.
      destruct (decide (a = b)) as [->|Hne].
      * rewrite fn_lookup_insert.
        rewrite (bool_decide_eq_true_2 (b ∈ b :: rest)) by left.
        rewrite Ht. now destruct (bool_decide (b ∈ rest)).
      * rewrite fn_lookup_insert_ne by assumption.
        destruct (decide (b ∈ rest)) as [Hin|Hnin].
        -- rewrite !bool_decide_eq_true_2; [reflexivity | now right | assumption].
        -- rewrite !bool_decide_eq_false_2; [reflexivity | | assumption].
           intros Hin. apply elem_of_cons in Hin as [-> | Hin]; congruence.
Qed.

Lemma link_all_Raise todo :
  forall self h e h',
    link_all self todo h = (Raise e, h') ->
    exists pre a post self1 h1,
      todo = pre ++ a :: post /\
      link_all self pre h = (Return self1, h1) /\
      target self h a = None /\
      e = ValueError no_neo_message /\
      h' = assign_neo a None h1.
Proof.
  induction todo as [|a rest IH]; intros self h e h'; simpl; [discriminate|].
  rewrite link_one_eq. destruct (target self h a) as [n|] eqn:Ht.
  - set (self1 := index_date _ a self). set (h2 := append_approach n a _).
    intros Hrun.
    destruct (IH _ _ _ _ Hrun) as (pre & b & post & s1 & h1 & -> & Hpre & Hb & -> & ->).
    exists (a :: pre), b, post, s1, h1. repeat split.
    + simpl. rewrite link_one_eq, Ht. exact Hpre.
    + rewrite <- Hb. symmetry.
      apply target_stable; [reflexivity | apply same_designations_link].
  - intros [= <- <-]. exists [], a, rest, self, h. repeat split. assumption.
Qed.

(** ** Matching, and inputs that have not been linked yet *)

Lemma target_is_Some neos approaches h a :
  is_Some (target (fresh_db neos approaches) h a) <-> has_match neos h a.
Proof.
  unfold has_match. split.
  - intros [n Hn]. apply get_neo_by_designation_Some in Hn
      as (pre & post & E & Hm & _). simpl in E.
    exists n. split; [|exact Hm]. rewrite E. apply elem_of_app. right. left.
  - intros (n & Hin & Hm).
    destruct (target (fresh_db neos approaches) h a) eqn:Ht; [eauto|].
    apply get_neo_by_designation_None with (m := n) in Ht; [contradiction|exact Hin].
Qed.

Lemma target_is_None neos approaches h a :
  target (fresh_db neos approaches) h a = None <-> ~ has_match neos h a.
Proof.
  rewrite <- target_is_Some. split.
  - intros -> [x Hx]. discriminate.
  - intros H. destruct (target _ h a); [|reflexivity].
    exfalso. apply H. eauto.
Qed.

Lemma target_in_neos neos approaches h a n :
  target (fresh_db neos approaches) h a = Some n -> n ∈ neos.
Proof.
  intros Ht. apply get_neo_by_designation_Some in Ht as (pre & post & E & _).
  simpl in E. rewrite E. apply elem_of_app. right. left.
Qed.

Lemma count_occ_filter (p : nat -> bool) (l : list nat) (a : nat) :
  count_occ Nat.eq_dec (List.filter p l) a
  = if p a then count_occ Nat.eq_dec l a else 0%nat.
Proof.
  induction l as [|x l IH]; simpl.
  - now destruct (p a).
  - destruct (p x) eqn:Hx; simpl; destruct (Nat.eq_dec x a) as [->|Hne].
    + rewrite IH, Hx. reflexivity.
    + exact IH.
    + rewrite IH, Hx. reflexivity.
    + exact IH.
Qed.

(** ** Construction: when it fails *)

(** C1 (as the code has it). Constructing the database fails exactly when some
    approach's designation matches no NEO of the collection up to case, and
    the exception is [ValueError("No NEO found for this approach.")];
    when every approach's designation matches some NEO, construction returns
    a database and raises nothing. *)
Theorem init_raises_iff_unmatched neos approaches h :
  ((exists a, a ∈ approaches /\ ~ has_match neos h a) ->
   exists h', __init__ neos approaches h
              = (Raise (ValueError "No NEO found for this approach."), h')) /\
  ((forall a, a ∈ approaches -> has_match neos h a) ->
   exists db h', __init__ neos approaches h = (Return db, h')).
Proof.
  unfold __init__. simpl. fold (fresh_db neos approaches).
  destruct (link_all (fresh_db neos approaches) approaches h) as [[db|e] h'] eqn:Hrun.
  - split; [|eauto]. intros (a & Hin & Hno). exfalso. apply Hno.
    apply link_all_Return in Hrun as (_ & _ & _ & _ & _ & Hsome & _).
    apply (target_is_Some neos approaches). now apply Hsome.
  - apply link_all_Raise in Hrun
      as (pre & a & post & s1 & h1 & -> & _ & Hnone & -> & ->).
    split; [eauto|]. intros Hall. exfalso.
    apply target_is_None in Hnone. apply Hnone, Hall.
    apply elem_of_app. right. left.
Qed.

(** ** Construction: the orderings *)

(** C2 (what the code does). The constructor never runs [__post__init__]:
    the database it returns has none of the three orderings. *)
Theorem init_leaves_orderings_unset neos approaches h db h' :
  __init__ neos approaches h = (Return db, h') ->
  approaches_distance_sorted db = None /\
  approaches_velocity_sorted db = None /\
  neos_diameter_sorted db = None.
Proof.
  unfold __init__. intros Hrun.
  apply link_all_Return in Hrun as (_ & _ & -> & -> & -> & _). auto.
Qed.

(** Had the method been called, the three orderings would exist. *)
Lemma post_init_sets_orderings self h :
  approaches_distance_sorted (__post__init__ self h)
  = Some (sorted (fun x => CloseApproach.distance (ca_at h x)) (_approaches self)) /\
  approaches_velocity_sorted (__post__init__ self h)
  = Some (sorted (fun x => CloseApproach.velocity (ca_at h x)) (_approaches self)) /\
  neos_diameter_sorted (__post__init__ self h)
  = Some (sorted (fun x => NearEarthObject.diameter (neo_at h x)) (_neos self)).
Proof. repeat split. Qed.

(** ** Construction: what a failure leaves behind *)

(** C3 (as the code has it). A failing construction returns no database, but
    it is not undone: with [a] the first approach that matches no NEO, every
    approach before [a] in the collection stays linked to the NEO found for it
    and is in that NEO's [approaches], while [a], the approaches after it and
    every other object are as they were. *)
Theorem init_failure_keeps_prefix_linked neos approaches h e h' :
  unlinked neos approaches h ->
  __init__ neos approaches h = (Raise e, h') ->
  exists pre a post,
    approaches = pre ++ a :: post /\
    ~ has_match neos h a /\
    (forall b, b ∈ pre ->
       exists n, n ∈ neos /\ CloseApproach.neo (ca_at h' b) = Some n /\
         get_neo_by_designation (fresh_db neos approaches) h
           (CloseApproach.designation (ca_at h b)) = Some n) /\
    (forall b, b ∉ pre -> ca_at h' b = ca_at h b) /\
    (forall n,
       NearEarthObject.approaches (neo_at h' n)
       = NearEarthObject.approaches (neo_at h n)
         ++ List.filter
              (fun b => bool_decide (CloseApproach.neo (ca_at h' b) = Some n)) pre).
Proof.
  intros [_ Hca0] Hrun. unfold __init__ in Hrun. simpl in Hrun.
  fold (fresh_db neos approaches) in Hrun.
  apply link_all_Raise in Hrun
    as (pre & a & post & s1 & h1 & -> & Hpre & Hnone & -> & ->).
  apply link_all_Return in Hpre as (_ & _ & _ & _ & _ & Hsome & Hneo & Hca).
  assert (Ha : a ∉ pre).
  { intros Hin. destruct (Hsome a Hin) as [n Hn]. congruence. }
  assert (Hlinked : forall b, b ∈ pre ->
            CloseApproach.neo (ca_at (assign_neo a None h1) b)
            = target (fresh_db neos (pre ++ a :: post)) h b).
  { intros b Hb. simpl. rewrite fn_lookup_insert_ne by congruence.
    rewrite Hca. unfold linked_ca. now rewrite bool_decide_eq_true_2. }
  exists pre, a, post. split; [reflexivity|]. split.
  { now apply (target_is_None neos (pre ++ a :: post)). }
  split; [|split].
  - intros b Hb. destruct (Hsome b Hb) as [n Hn]. exists n. split; [|split].
    + exact (target_in_neos _ _ _ _ _ Hn).
    + now rewrite Hlinked.
    + exact Hn.
  - intros b Hb. simpl. destruct (decide (a = b)) as [<-|Hne].
    + rewrite fn_lookup_insert, Hca. unfold linked_ca.
      rewrite bool_decide_eq_false_2 by assumption.
      specialize (Hca0 a). rewrite elem_of_app, elem_of_cons in Hca0.
      destruct (ca_at h a) as [d t di v r]. simpl in *.
      rewrite Hca0 by auto. reflexivity.
    + rewrite fn_lookup_insert_ne by assumption. rewrite Hca. unfold linked_ca.
      now rewrite bool_decide_eq_false_2.
  - intros n. change (neo_at (assign_neo a None h1) n) with (neo_at h1 n).
    rewrite Hneo. unfold linked_neo.
    cbn [NearEarthObject.approaches]. f_equal.
    apply List.filter_ext_in. intros b Hb.
    rewrite Hlinked by now apply list_elem_of_In. reflexivity.
Qed.

(** ** Construction: what a success establishes *)

(** C4 (as the code has it). After a successful construction from an unlinked
    input, every approach of the input references an NEO of the input
    collection, and that NEO's [approaches] holds the approach as many times
    as the input approach collection does: exactly once when the collection
    lists it once. *)
Theorem linkage_totality neos approaches h db h' :
  unlinked neos approaches h ->
  __init__ neos approaches h = (Return db, h') ->
  forall a, a ∈ approaches ->
    exists n,
      CloseApproach.neo (ca_at h' a) = Some n /\
      n ∈ neos /\
      count_occ Nat.eq_dec (NearEarthObject.approaches (neo_at h' n)) a
      = count_occ Nat.eq_dec approaches a /\
      (List.NoDup approaches ->
       count_occ Nat.eq_dec (NearEarthObject.approaches (neo_at h' n)) a = 1%nat).
Proof.
  intros [Hneo0 _] Hrun a Hin. unfold __init__ in Hrun. simpl in Hrun.
  fold (fresh_db neos approaches) in Hrun.
  apply link_all_Return in Hrun as (_ & _ & _ & _ & _ & Hsome & Hneo & Hca).
  destruct (Hsome a Hin) as [n Hn]. exists n.
  assert (Hn_in : n ∈ neos) by exact (target_in_neos _ _ _ _ _ Hn).
  assert (Hcount :
    count_occ Nat.eq_dec (NearEarthObject.approaches (neo_at h' n)) a
    = count_occ Nat.eq_dec approaches a).
  { rewrite Hneo. unfold linked_neo. cbn [NearEarthObject.approaches].
    rewrite (Hneo0 n Hn_in). simpl. rewrite count_occ_filter.
    now rewrite bool_decide_eq_true_2. }
  split; [|split; [exact Hn_in | split; [exact Hcount|]]].
  - rewrite Hca. unfold linked_ca. rewrite bool_decide_eq_true_2 by assumption.
    exact Hn.
  - intros Hnd. rewrite Hcount.
    apply (proj1 (List.NoDup_count_occ' Nat.eq_dec approaches) Hnd).
    now apply list_elem_of_In.
Qed.

(** ** Lookup by designation *)

(** C5 (as the code has it). In a database whose NEOs have designations
    that are unique up to case, looking up any string equal up to case to the designation of an NEO
    of the database returns that NEO, and looking up a string that matches no
    designation returns [None]. *)
Theorem get_neo_by_designation_correct self h :
  (forall n m, n ∈ _neos self -> m ∈ _neos self ->
     lower (NearEarthObject.designation (neo_at h n))
     = lower (NearEarthObject.designation (neo_at h m)) -> n = m) ->
  (forall n s, n ∈ _neos self ->
     lower s = lower (NearEarthObject.designation (neo_at h n)) ->
     get_neo_by_designation self h s = Some n) /\
  (forall s,
     (forall n, n ∈ _neos self ->
        lower (NearEarthObject.designation (neo_at h n)) <> lower s) ->
     get_neo_by_designation self h s = None).
Proof.
  intros Huniq. split.
  - intros n s Hin Hs.
    destruct (get_neo_by_designation self h s) as [m|] eqn:Hget.
    + apply get_neo_by_designation_Some in Hget as (pre & post & E & Hm & _).
      f_equal. apply Huniq; [| exact Hin | congruence].
      rewrite E. apply elem_of_app. right. left.
    + apply get_neo_by_designation_None with (m := n) in Hget; [|exact Hin].
      congruence.
  - intros s Hnone. now apply get_neo_by_designation_None.
Qed.


(** ** Lookup by name *)

Lemma get_neo_by_name_Some self h s n :
  get_neo_by_name self h (Some s) = Some n <->
  s <> "" /\
  exists pre post nm,
    _neos self = pre ++ n :: post /\
    NearEarthObject.name (neo_at h n) = Some nm /\ lower nm = lower s /\
    forall m mn, m ∈ pre -> NearEarthObject.name (neo_at h m) = Some mn ->
                 lower mn <> lower s.
Proof.
  unfold get_neo_by_name. destruct (String.eqb_spec s "") as [->|Hs].
  - split; [discriminate | intros [[] _]; reflexivity].
  - rewrite find_first. split.
    + intros (pre & post & E & Hn & Hpre). split; [exact Hs|].
      destruct (NearEarthObject.name (neo_at h n)) as [nm|] eqn:Hnm; [|discriminate].
      exists pre, post, nm. repeat split; [exact E | now apply String.eqb_eq |].
      intros m mn Hm Hmn. specialize (Hpre m Hm). rewrite Hmn in Hpre.
      now apply String.eqb_neq.
    + intros (_ & pre & post & nm & E & Hnm & Hl & Hpre).
      exists pre, post. split; [exact E|]. split.
      * rewrite Hnm. now apply String.eqb_eq.
      * intros m Hm. destruct (NearEarthObject.name (neo_at h m)) as [mn|] eqn:Hmn;
          [|reflexivity].
        apply String.eqb_neq. now apply (Hpre m).
Qed.

(** C6. Looking up [None] or the empty string finds nothing, whatever the
    NEOs are; a lookup never returns an NEO without a name; and for an NEO
    that has a name (a name is never the empty string), looking up a string
    equal to that name up to case returns the earliest NEO of the collection
    whose name equals it up to case. *)
Theorem get_neo_by_name_correct self h :
  get_neo_by_name self h None = None /\
  get_neo_by_name self h (Some "") = None /\
  (forall q n, get_neo_by_name self h q = Some n ->
     n ∈ _neos self /\ NearEarthObject.name (neo_at h n) <> None) /\
  (forall n nm s,
     n ∈ _neos self ->
     NearEarthObject.name (neo_at h n) = Some nm ->
     nm <> "" ->
     lower s = lower nm ->
     exists pre m post mn,
       get_neo_by_name self h (Some s) = Some m /\
       _neos self = pre ++ m :: post /\
       NearEarthObject.name (neo_at h m) = Some mn /\
       lower mn = lower nm /\
       forall x xn, x ∈ pre -> NearEarthObject.name (neo_at h x) = Some xn ->
                    lower xn <> lower nm).
Proof.
  split; [reflexivity|]. split; [reflexivity|]. split.
  - intros [s|] n Hget; [|discriminate].
    apply get_neo_by_name_Some in Hget as (_ & pre & post & nm & E & Hnm & _).
    split; [|congruence]. rewrite E. apply elem_of_app. right. left.
  - intros n nm s Hin Hnm Hne Hs.
    assert (Hs_ne : s <> "").
    { intros ->. apply Hne. apply lower_empty. rewrite <- Hs. apply lower_nil. }
    destruct (get_neo_by_name self h (Some s)) as [m|] eqn:Hget.
    + pose proof Hget as Hm.
      apply get_neo_by_name_Some in Hm as (_ & pre & post & mn & E & Hmn & Hl & Hpre).
      exists pre, m, post, mn. repeat split; try assumption; try congruence.
      intros x xn Hx Hxn. rewrite <- Hs. now apply (Hpre x).
    + exfalso. unfold get_neo_by_name in Hget.
      destruct (String.eqb_spec s "") as [->|_]; [now apply Hs_ne|].
      apply find_absent with (y := n) in Hget; [|exact Hin].
      rewrite Hnm in Hget. apply String.eqb_neq in Hget. congruence.
Qed.

(** ** Queries *)

Lemma resume_filter h filters pending :
  List.filter (passes h filters) pending
  = match resume h filters pending with
    | (Some a, rest) => a :: List.filter (passes h filters) rest
    | (None, _) => []
    end.
Proof.
  induction pending as [|a rest IH]; simpl; [reflexivity|].
  fold (passes h filters a). destruct (passes h filters a); [reflexivity | exact IH].
Qed.

Lemma resume_shorter h filters pending a rest :
  resume h filters pending = (Some a, rest) ->
  (length rest < length pending)%nat.
Proof.
  induction pending as [|b l IH]; simpl; [discriminate|].
  fold (passes h filters b). destruct (passes h filters b).
  - intros [= _ ->]. lia.
  - intros H. specialize (IH H). lia.
Qed.



(** Enough fuel: one unit per pending approach. *)
Lemma collect_enough fuel :
  forall h g, (length (gen_pending g) <= fuel)%nat ->
    collect fuel h g = List.filter (passes h (gen_filters g)) (gen_pending g).
Proof.
  induction fuel as [|fuel IH]; intros h [filters pending] Hlen; simpl in *.
  - destruct pending; [reflexivity | simpl in Hlen; lia].
  - rewrite resume_filter. unfold next. simpl.
    destruct (resume h filters pending) as [[a|] rest] eqn:Hres; [|reflexivity].
    apply resume_shorter in Hres. rewrite IH by (simpl; lia). reflexivity.
Qed.

Lemma to_list_filter h g :
  to_list h g = List.filter (passes h (gen_filters g)) (gen_pending g).
Proof. unfold to_list. apply collect_enough. lia. Qed.


Lemma passes_one h P a : passes h [P] a = P h a.
Proof. unfold passes. simpl. apply andb_true_r. Qed.

Lemma passes_two h P1 P2 a : passes h [P1; P2] a = P1 h a && P2 h a.
Proof. unfold passes. simpl. now rewrite andb_true_r. Qed.

Lemma intersection_of_filters (P1 P2 : nat -> bool) (k1 k2 : list nat) :
  (forall x, x ∈ k1 -> x ∈ k2) ->
  list_intersection (List.filter P1 k1) (List.filter P2 k2)
  = List.filter (fun a => P1 a && P2 a) k1.
Proof.
  intros Hsub. induction k1 as [|x k1 IH]; [reflexivity|].
  assert (Hsub' : forall y, y ∈ k1 -> y ∈ k2) by (intros y Hy; apply Hsub; now right).
  specialize (IH Hsub'). simpl. destruct (P1 x) eqn:H1; simpl; [|exact IH].
  destruct (decide_rel elem_of x (List.filter P2 k2)) as [Hin|Hnin];
    destruct (P2 x) eqn:H2.
  - now f_equal.
  - apply list_elem_of_In, List.filter_In in Hin as [_ Hin]. congruence.
  - exfalso. apply Hnin, list_elem_of_In, List.filter_In. split; [|exact H2].
    apply list_elem_of_In, Hsub. left.
  - exact IH.
Qed.


(** C8. [query] yields, in storage order, exactly the approaches that every
    filter accepts; with two filters these are the approaches that satisfy
    both, which is the intersection of what each filter yields alone. *)
Theorem query_conjunction self h :
  (forall filters,
     to_list h (query self filters)
     = List.filter (fun a => forallb (fun f => f h a) filters) (_approaches self)) /\
  (forall P1 P2 : predicate,
     to_list h (query self [P1; P2])
     = List.filter (fun a => P1 h a && P2 h a) (_approaches self) /\
     to_list h (query self [P1; P2])
     = list_intersection (to_list h (query self [P1])) (to_list h (query self [P2]))).
Proof.
  split; [intros filters; apply to_list_filter|].
  intros P1 P2. rewrite !to_list_filter. simpl.
  assert (E12 : List.filter (passes h [P1; P2]) (_approaches self)
                = List.filter (fun a => P1 h a && P2 h a) (_approaches self)).
  { apply List.filter_ext. intros a. apply passes_two. }
  split; [exact E12|]. rewrite E12.
  rewrite (List.filter_ext (passes h [P1]) (P1 h)) by (intros; apply passes_one).
  rewrite (List.filter_ext (passes h [P2]) (P2 h)) by (intros; apply passes_one).
  symmetry. apply intersection_of_filters. auto.
Qed.

(** ** Two generators side by side *)






(** * Further properties of the constructor *)

(** One turn of the loop changes only [neo] and [approaches]. *)
Lemma link_step_frame (h : heap) (n a : nat) :
  let h2 := append_approach n a (assign_neo a (Some n) h) in
  (forall m,
     NearEarthObject.designation (neo_at h2 m) = NearEarthObject.designation (neo_at h m) /\
     NearEarthObject.name (neo_at h2 m) = NearEarthObject.name (neo_at h m) /\
     NearEarthObject.diameter (neo_at h2 m) = NearEarthObject.diameter (neo_at h m) /\
     NearEarthObject.hazardous (neo_at h2 m) = NearEarthObject.hazardous (neo_at h m)) /\
  (forall b,
     CloseApproach.designation (ca_at h2 b) = CloseApproach.designation (ca_at h b) /\
     CloseApproach.time (ca_at h2 b) = CloseApproach.time (ca_at h b) /\
     CloseApproach.distance (ca_at h2 b) = CloseApproach.distance (ca_at h b) /\
     CloseApproach.velocity (ca_at h2 b) = CloseApproach.velocity (ca_at h b)).
Proof.
  split; intros x; simpl.
  - destruct (decide (n = x)) as [->|Hne].
    + rewrite fn_lookup_insert. auto.
    + rewrite fn_lookup_insert_ne by assumption. auto.
  - destruct (decide (a = x)) as [->|Hne].
    + rewrite fn_lookup_insert. auto.
    + rewrite fn_lookup_insert_ne by assumption. auto.
Qed.

Lemma link_all_dates todo :
  forall self h self' h',
    link_all self todo h = (Return self', h') ->
    forall d,
      _date_to_approaches self' !! d
      = match on_date h d todo with
        | [] => _date_to_approaches self !! d
        | l => Some (default [] (_date_to_approaches self !! d) ++ l)
        end.
Proof.
  induction todo as [|a rest IH]; intros self h self' h'; simpl.
  - intros [= -> ->] d. reflexivity.
  - rewrite link_one_eq. destruct (target self h a) as [n|] eqn:Ht; [|discriminate].
    set (self1 := index_date _ a self). set (h2 := append_approach n a _).
    intros Hrun d. rewrite (IH _ _ _ _ Hrun d).
    assert (Hon : on_date h2 d rest = on_date h d rest).
    { apply List.filter_ext. intros b. unfold date_of.
      destruct (link_step_frame h n a) as [_ Hf]. fold h2 in Hf.
      destruct (Hf b) as (_ & -> & _). reflexivity. }
    rewrite Hon. fold (date_of h a). unfold on_date at 2. simpl.
    fold (on_date h d rest). subst self1. cbn [_date_to_approaches index_date].
    fold (date_of h a).
    destruct (decide (date_of h a = d)) as [Hd|Hd].
    + rewrite bool_decide_eq_true_2 by assumption. subst d.
      rewrite lookup_insert_eq. simpl.
      destruct (on_date h (date_of h a) rest); simpl.
      * reflexivity.
      * now rewrite <- app_assoc.
    + rewrite bool_decide_eq_false_2 by assumption.
      rewrite lookup_insert_ne by assumption. reflexivity.
Qed.

Lemma same_attributes_refl h : same_attributes h h.
Proof. split; intros; auto. Qed.

Lemma same_attributes_trans h1 h2 h3 :
  same_attributes h1 h2 -> same_attributes h2 h3 -> same_attributes h1 h3.
Proof.
  intros [N12 A12] [N23 A23]. split; intros x.
  - destruct (N23 x) as (-> & -> & -> & ->). apply N12.
  - destruct (A23 x) as (-> & -> & -> & ->). apply A12.
Qed.

Lemma same_attributes_assign h a r : same_attributes h (assign_neo a r h).
Proof.
  split; intros x; simpl; [auto|].
  destruct (decide (a = x)) as [->|Hne].
  - rewrite fn_lookup_insert. auto.
  - rewrite fn_lookup_insert_ne by assumption. auto.
Qed.

Lemma same_attributes_designations h h' :
  same_attributes h h' -> same_designations h h'.
Proof. intros [N A]. split; intros x; [apply N | apply A]. Qed.

Lemma link_all_frame todo :
  forall self h r h', link_all self todo h = (r, h') -> same_attributes h h'.
Proof.
  induction todo as [|a rest IH]; intros self h r h'; simpl.
  - intros [= _ <-]. apply same_attributes_refl.
  - rewrite link_one_eq. destruct (target self h a) as [n|].
    + intros Hrun. eapply same_attributes_trans; [|exact (IH _ _ _ _ Hrun)].
      exact (link_step_frame h n a).
    + intros [= _ <-]. apply same_attributes_assign.
Qed.

(** X1. Whether it succeeds or fails, the constructor changes nothing but
    the links: the designation, name, diameter and hazard flag of every NEO,
    and the designation, time, distance and velocity of every approach, are
    afterwards what they were. *)
Theorem init_keeps_attributes neos approaches h r h' :
  __init__ neos approaches h = (r, h') ->
  same_attributes h h'.
Proof. unfold __init__. apply link_all_frame. Qed.

(** X2. A successful construction leaves in the date index, under each
    calendar day, exactly the approaches of the input that fall on that day,
    in input order; a day without approaches is not a key of the index. *)
Theorem init_date_index neos approaches h db h' :
  __init__ neos approaches h = (Return db, h') ->
  forall d,
    _date_to_approaches db !! d
    = match on_date h' d approaches with
      | [] => None
      | l => Some l
      end.
Proof.
  intros Hrun d. unfold __init__ in Hrun. simpl in Hrun.
  pose proof (link_all_frame _ _ _ _ _ Hrun) as [_ Hattr].
  rewrite (link_all_dates _ _ _ _ _ Hrun d). simpl. rewrite lookup_empty. simpl.
  assert (Hon : on_date h' d approaches = on_date h d approaches).
  { apply List.filter_ext. intros a. unfold date_of.
    destruct (Hattr a) as (_ & -> & _). reflexivity. }
  rewrite Hon. reflexivity.
Qed.

Lemma get_neo_by_name_stable self h h' q :
  same_attributes h h' ->
  get_neo_by_name self h' q = get_neo_by_name self h q.
Proof.
  intros [Hattr _]. unfold get_neo_by_name. destruct q as [s|]; [|reflexivity].
  destruct (String.eqb s ""); [reflexivity|].
  apply find_agree. intros x. destruct (Hattr x) as (_ & -> & _). reflexivity.
Qed.

(** X3. Construction does not change what the lookups answer: for every
    database object and every query string, [get_neo_by_designation] and
    [get_neo_by_name] return after the constructor has run, successfully or
    not, what they returned before. *)
Theorem init_keeps_lookups neos approaches h r h' :
  __init__ neos approaches h = (r, h') ->
  forall self,
    (forall s, get_neo_by_designation self h' s = get_neo_by_designation self h s) /\
    (forall q, get_neo_by_name self h' q = get_neo_by_name self h q).
Proof.
  unfold __init__. intros Hrun self.
  pose proof (link_all_frame _ _ _ _ _ Hrun) as Hattr. split.
  - intros s. apply get_neo_by_designation_stable; [reflexivity|].
    now apply same_attributes_designations.
  - intros q. now apply get_neo_by_name_stable.
Qed.

(** After a successful run every approach of the input holds the NEO
    resolved for it, in the old store as in the new one. *)
Lemma link_all_neo_field self todo h self' h' :
  link_all self todo h = (Return self', h') ->
  forall a, a ∈ todo -> CloseApproach.neo (ca_at h' a) = target self h a.
Proof.
  intros Hrun a Ha.
  apply link_all_Return in Hrun as (_ & _ & _ & _ & _ & _ & _ & Hca).
  rewrite Hca. unfold linked_ca. now rewrite bool_decide_eq_true_2.
Qed.

(** X4. A successful construction, on any input, appends to each NEO's
    [approaches] exactly the input approaches that it linked to that NEO, in
    input order, after whatever the collection held before; approach objects
    that are not in the input are left untouched. *)
Theorem init_appends_in_input_order neos approaches h db h' :
  __init__ neos approaches h = (Return db, h') ->
  (forall n,
     NearEarthObject.approaches (neo_at h' n)
     = NearEarthObject.approaches (neo_at h n)
       ++ List.filter
            (fun a => bool_decide (CloseApproach.neo (ca_at h' a) = Some n))
            approaches) /\
  (forall a, a ∉ approaches -> ca_at h' a = ca_at h a).
Proof.
  unfold __init__. simpl. intros Hrun.
  pose proof (link_all_neo_field _ _ _ _ _ Hrun) as Hfield.
  apply link_all_Return in Hrun as (_ & _ & _ & _ & _ & _ & Hneo & Hca). split.
  - intros n. rewrite Hneo. unfold linked_neo. cbn [NearEarthObject.approaches].
    f_equal. apply List.filter_ext_in. intros a Ha.
    rewrite Hfield by now apply list_elem_of_In. reflexivity.
  - intros a Ha. rewrite Hca. unfold linked_ca. now rewrite bool_decide_eq_false_2.
Qed.

(** X5. After a successful construction from an unlinked input, the two
    directions of the link agree: an approach is in the [approaches] of an NEO
    of the input exactly when it is an approach of the input whose [neo] is
    that NEO. *)
Theorem init_links_both_ways neos approaches h db h' :
  unlinked neos approaches h ->
  __init__ neos approaches h = (Return db, h') ->
  forall n a, n ∈ neos ->
    (a ∈ NearEarthObject.approaches (neo_at h' n)
     <-> a ∈ approaches /\ CloseApproach.neo (ca_at h' a) = Some n).
Proof.
  intros [Hneo0 _] Hrun n a Hn. unfold __init__ in Hrun. simpl in Hrun.
  pose proof (link_all_neo_field _ _ _ _ _ Hrun) as Hfield.
  apply link_all_Return in Hrun as (_ & _ & _ & _ & _ & _ & Hneo & _).
  rewrite Hneo. unfold linked_neo. cbn [NearEarthObject.approaches].
  rewrite (Hneo0 n Hn). simpl.
  rewrite !list_elem_of_In, List.filter_In, bool_decide_eq_true.
  split; intros [Hin Ht]; (split; [exact Hin|]).
  - rewrite Hfield by now apply list_elem_of_In. exact Ht.
  - rewrite <- Hfield by now apply list_elem_of_In. exact Ht.
Qed.

(** X6. The constructor is not idempotent on the objects: building a second
    database from collections that a first, successful construction has
    already linked succeeds again, re-sets every [neo] to the same NEO, and
    appends every approach a second time, so that each NEO's [approaches] is
    its list after the first construction written twice. *)
Theorem init_twice_doubles_approaches neos approaches h db h1 :
  unlinked neos approaches h ->
  __init__ neos approaches h = (Return db, h1) ->
  exists db2 h2,
    __init__ neos approaches h1 = (Return db2, h2) /\
    (forall n, n ∈ neos ->
       NearEarthObject.approaches (neo_at h2 n)
       = NearEarthObject.approaches (neo_at h1 n)
         ++ NearEarthObject.approaches (neo_at h1 n)) /\
    (forall a, CloseApproach.neo (ca_at h2 a) = CloseApproach.neo (ca_at h1 a)).
Proof.
  intros [Hneo0 _] Hrun1. unfold __init__ in *. simpl in *.
  fold (fresh_db neos approaches) in *.
  pose proof (link_all_frame _ _ _ _ _ Hrun1) as Hattr.
  apply same_attributes_designations in Hattr.
  assert (Hstable : forall a, target (fresh_db neos approaches) h1 a
                              = target (fresh_db neos approaches) h a).
  { intros a. now apply target_stable. }
  apply link_all_Return in Hrun1 as (_ & _ & _ & _ & _ & Hsome & Hneo1 & Hca1).
  destruct (link_all (fresh_db neos approaches) approaches h1)
    as [[db2|e] h2] eqn:Hrun2.
  - exists db2, h2. split; [reflexivity|].
    apply link_all_Return in Hrun2 as (_ & _ & _ & _ & _ & _ & Hneo2 & Hca2).
    split.
    + intros n Hn. rewrite Hneo2. unfold linked_neo at 1.
      cbn [NearEarthObject.approaches]. f_equal.
      rewrite Hneo1. unfold linked_neo. cbn [NearEarthObject.approaches].
      rewrite (Hneo0 n Hn). simpl.
      apply List.filter_ext. intros a. now rewrite Hstable.
    + intros a. rewrite Hca2. unfold linked_ca.
      destruct (decide (a ∈ approaches)) as [Hin|Hnin].
      * rewrite bool_decide_eq_true_2 by assumption. simpl.
        rewrite Hstable, Hca1. unfold linked_ca.
        now rewrite bool_decide_eq_true_2.
      * now rewrite bool_decide_eq_false_2.
  - exfalso.
    apply link_all_Raise in Hrun2 as (pre & a & post & _ & _ & E & _ & Hnone & _).
    rewrite Hstable in Hnone. destruct (Hsome a) as [n Hn]; [|congruence].
    rewrite E. apply elem_of_app. right. left.
Qed.

(** * Further properties of the lookups *)

(** X7. Both lookups ignore the case of the string they are given: two
    strings that are equal up to case get the same answer from
    [get_neo_by_designation] and the same answer from [get_neo_by_name]. *)
Theorem lookups_ignore_query_case self h s t :
  lower s = lower t ->
  get_neo_by_designation self h s = get_neo_by_designation self h t /\
  get_neo_by_name self h (Some s) = get_neo_by_name self h (Some t).
Proof.
  intros Hst. split.
  - unfold get_neo_by_designation. now rewrite Hst.
  - unfold get_neo_by_name.
    destruct (String.eqb_spec s "") as [Hs|Hs], (String.eqb_spec t "") as [Ht|Ht].
    + reflexivity.
    + exfalso. apply Ht. apply lower_empty. rewrite <- Hst, Hs. apply lower_nil.
    + exfalso. apply Hs. apply lower_empty. rewrite Hst, Ht. apply lower_nil.
    + now rewrite Hst.
Qed.

(** * Further properties of queries *)

Lemma passes_app h fs gs a :
  passes h (fs ++ gs) a = passes h fs a && passes h gs a.
Proof. unfold passes. apply forallb_app. Qed.

Lemma passes_perm h fs gs a :
  Permutation fs gs -> passes h fs a = passes h gs a.
Proof.
  unfold passes. induction 1 as [|f fs gs _ IH|f g fs|fs gs ks _ IH1 _ IH2]; simpl.
  - reflexivity.
  - now rewrite IH.
  - destruct (f h a), (g h a); reflexivity.
  - now rewrite IH1.
Qed.

(** X8. The order of the filters, and repeating one, does not change what a
    query yields: two filter collections that are permutations of each other
    give the same sequence, and so does a collection with one of its filters
    added again. *)
Theorem query_filter_order_irrelevant self h (fs gs : list predicate) (f : predicate) :
  (Permutation fs gs ->
   to_list h (query self fs) = to_list h (query self gs)) /\
  (f ∈ fs ->
   to_list h (query self (f :: fs)) = to_list h (query self fs)).
Proof.
  split.
  - intros Hperm. rewrite !to_list_filter. simpl.
    apply List.filter_ext. intros a. now apply passes_perm.
  - intros Hin. rewrite !to_list_filter. simpl.
    apply List.filter_ext. intros a. unfold passes. simpl.
    destruct (f h a) eqn:Hf; [reflexivity|]. symmetry.
    apply not_true_is_false. intros Hall.
    rewrite forallb_forall in Hall.
    rewrite (Hall f) in Hf by now apply list_elem_of_In. discriminate.
Qed.

(** X9. Filters compose: a query with the filters [fs ++ gs] yields what is
    left of the sequence yielded for [fs] after removing the approaches that
    some filter of [gs] rejects, so adding filters only ever removes
    results. *)
Theorem query_filters_compose self h (fs gs : list predicate) :
  to_list h (query self (fs ++ gs))
  = List.filter (fun a => forallb (fun f => f h a) gs) (to_list h (query self fs)).
Proof.
  rewrite !to_list_filter. simpl. fold (passes h gs).
  induction (_approaches self) as [|a l IH]; simpl; [reflexivity|].
  rewrite passes_app. destruct (passes h fs a); simpl.
  - destruct (passes h gs a); now rewrite IH.
  - exact IH.
Qed.

Lemma resume_first_match h filters pending :
  match resume h filters pending with
  | (Some a, rest) =>
      exists skipped,
        pending = skipped ++ a :: rest /\
        passes h filters a = true /\
        forall b, b ∈ skipped -> passes h filters b = false
  | (None, rest) =>
      rest = [] /\ forall b, b ∈ pending -> passes h filters b = false
  end.
Proof.
  induction pending as [|b l IH]; simpl.
  - split; [reflexivity|]. intros b Hb. inversion Hb.
  - fold (passes h filters b). destruct (passes h filters b) eqn:Hb.
    + exists []. repeat split; [exact Hb|]. intros c Hc. inversion Hc.
    + destruct (resume h filters l) as [[a|] rest].
      * destruct IH as (skipped & -> & Ha & Hsk). exists (b :: skipped).
        repeat split; [exact Ha|].
        intros c Hc. apply elem_of_cons in Hc as [-> | Hc]; auto.
      * destruct IH as [-> Hall]. split; [reflexivity|].
        intros c Hc. apply elem_of_cons in Hc as [-> | Hc]; auto.
Qed.

Lemma collect_take k :
  forall h g,
    collect k h g = take k (List.filter (passes h (gen_filters g)) (gen_pending g)).
Proof.
  induction k as [|k IH]; intros h [filters pending]; simpl; [reflexivity|].
  rewrite resume_filter. unfold next. simpl.
  destruct (resume h filters pending) as [[a|] rest]; [|reflexivity].
  simpl. now rewrite IH.
Qed.

(** X10. A query is consumed lazily and in storage order.  The first [k]
    calls of [next] on the generator of [query(filters)] return the first [k]
    approaches of the stored collection that every filter accepts (all of
    them when there are fewer).  Each single [next] passes over the pending
    approaches that some filter rejects, returns the first one that every
    filter accepts and leaves pending exactly what follows it; it signals the
    end when every pending approach is rejected. *)
Theorem next_takes_first_match self h (filters : list predicate) :
  (forall k,
     collect k h (query self filters)
     = take k (List.filter (fun a => forallb (fun f => f h a) filters)
                           (_approaches self))) /\
  (forall g,
     match next h g with
     | (Some a, g') =>
         gen_filters g' = gen_filters g /\
         exists skipped,
           gen_pending g = skipped ++ a :: gen_pending g' /\
           forallb (fun f => f h a) (gen_filters g) = true /\
           forall b, b ∈ skipped -> forallb (fun f => f h b) (gen_filters g) = false
     | (None, g') =>
         gen_filters g' = gen_filters g /\
         gen_pending g' = [] /\
         forall b, b ∈ gen_pending g -> forallb (fun f => f h b) (gen_filters g) = false
     end).
Proof.
  split.
  - intros k. apply collect_take.
  - intros g. pose proof (resume_first_match h (gen_filters g) (gen_pending g)) as Hres.
    unfold next. destruct (resume h (gen_filters g) (gen_pending g)) as [[a|] rest];
      simpl; (split; [reflexivity|]); exact Hres.
Qed.

(** * Queries with filters that may raise *)







(** With filters that never raise, the generator above is the plain one. *)
Lemma resume_raising_plain {E : Type} h (fs : list predicate) pending :
  resume_raising (E := E) h (map never_raises fs) pending
  = match resume h fs pending with
    | (Some a, rest) => (Yield a, rest)
    | (None, rest) => (StopIteration, rest)
    end.
Proof.
  assert (Hall : forall a, all_answers (E := E) h (map never_raises fs) a
                           = Told (forallb (fun f => f h a) fs)).
  { intros a. induction fs as [|f fs IH]; simpl; [reflexivity|].
    unfold never_raises at 1. destruct (f h a); [exact IH | reflexivity]. }
  induction pending as [|a l IH]; simpl; [reflexivity|].
  rewrite Hall. destruct (forallb (fun f => f h a) fs); [reflexivity | exact IH].
Qed.

(** * Construction and queries together *)

(** X18. Whatever the filters, every approach that a query on a successfully
    constructed database yields is linked: its [neo] is an NEO of the input
    collection whose designation equals the approach's up to case. *)
Theorem query_yields_linked_approaches neos approaches h db h' :
  __init__ neos approaches h = (Return db, h') ->
  forall (filters : list predicate) a,
    a ∈ to_list h' (query db filters) ->
    exists n,
      CloseApproach.neo (ca_at h' a) = Some n /\
      n ∈ neos /\
      lower (NearEarthObject.designation (neo_at h' n))
      = lower (CloseApproach.designation (ca_at h' a)).
Proof.
  unfold __init__. simpl. fold (fresh_db neos approaches). intros Hrun filters a Ha.
  pose proof (link_all_frame _ _ _ _ _ Hrun) as [Hn_attr Ha_attr].
  pose proof (link_all_neo_field _ _ _ _ _ Hrun) as Hfield.
  apply link_all_Return in Hrun as (_ & Happ & _ & _ & _ & Hsome & _).
  rewrite to_list_filter in Ha. simpl in Ha. rewrite Happ in Ha. simpl in Ha.
  apply list_elem_of_In, List.filter_In in Ha as [Ha _].
  apply list_elem_of_In in Ha. destruct (Hsome a Ha) as [n Hn].
  exists n. split; [now rewrite Hfield|]. split.
  - exact (target_in_neos _ _ _ _ _ Hn).
  - apply get_neo_by_designation_Some in Hn as (_ & _ & _ & Hm & _).
    destruct (Hn_attr n) as (-> & _). destruct (Ha_attr a) as (-> & _). exact Hm.
Qed.

(** * The orderings of [__post__init__] *)

Lemma number_lt_asym x y : number_lt x y = true -> number_lt y x = false.
Proof.
  destruct x as [p|], y as [q|]; simpl; try discriminate.
  rewrite negb_true_iff, negb_false_iff. intros Hqp.
  apply Qle_bool_iff. apply Qlt_le_weak. apply Qnot_le_lt.
  intros Hle. apply Qle_bool_iff in Hle. congruence.
Qed.

Lemma number_le_lt_trans x y z :
  is_known z ->
  number_lt x y = true -> number_lt z y = false -> number_lt z x = false.
Proof.
  destruct x as [p|], y as [q|], z as [r|]; simpl; try discriminate; try contradiction.
  intros _. rewrite negb_true_iff, !negb_false_iff. intros Hqp Hqr.
  apply Qle_bool_iff in Hqr. apply Qle_bool_iff.
  apply Qle_trans with q; [|exact Hqr].
  apply Qlt_le_weak. apply Qnot_le_lt. intros Hle.
  apply Qle_bool_iff in Hle. congruence.
Qed.

Lemma number_lt_not_same x y k :
  number_lt x y = true ->
  match x with Num p => Qeq_bool p k | NaN => false end = true ->
  match y with Num q => Qeq_bool q k | NaN => false end = false.
Proof.
  destruct x as [p|], y as [q|]; simpl; try discriminate; try reflexivity.
  rewrite negb_true_iff. intros Hqp Hp. apply Qeq_bool_iff in Hp.
  apply not_true_is_false. intros Hq. apply Qeq_bool_iff in Hq.
  assert (Hle : Qle_bool q p = true).
  { apply Qle_bool_iff. rewrite Hp, Hq. apply Qle_refl. }
  congruence.
Qed.

Lemma number_le_not_same x y z k :
  is_known z ->
  number_lt x y = true -> number_lt z y = false ->
  match x with Num p => Qeq_bool p k | NaN => false end = true ->
  match z with Num r => Qeq_bool r k | NaN => false end = false.
Proof.
  intros Hz Hxy Hzy Hx.
  destruct x as [p|], y as [q|], z as [r|]; simpl in *;
    try discriminate; try contradiction.
  rewrite negb_true_iff in Hxy. rewrite negb_false_iff in Hzy.
  apply Qle_bool_iff in Hzy. apply Qeq_bool_iff in Hx.
  apply not_true_is_false. intros Hr. apply Qeq_bool_iff in Hr.
  assert (Hle : Qle_bool q p = true).
  { apply Qle_bool_iff. rewrite Hx, <- Hr. exact Hzy. }
  congruence.
Qed.

Section SortedFacts.
Context {A : Type} (key : A -> number).

Lemma insert_by_perm (x : A) (l : list A) :
  Permutation (insert_by key x l) (x :: l).
Proof.
  induction l as [|y l IH]; simpl; [reflexivity|].
  destruct (number_lt (key x) (key y)); [reflexivity|].
  rewrite IH. apply perm_swap.
Qed.

Lemma sorted_from_perm (l acc : list A) :
  Permutation (fold_left (fun acc x => insert_by key x acc) l acc) (l ++ acc).
Proof.
  revert acc. induction l as [|x l IH]; intros acc; simpl; [reflexivity|].
  rewrite IH, insert_by_perm. symmetry. apply Permutation_middle.
Qed.

Lemma sorted_perm (l : list A) : Permutation (sorted key l) l.
Proof. unfold sorted. rewrite sorted_from_perm. now rewrite app_nil_r. Qed.

Lemma insert_by_ascending (x : A) (l : list A) :
  is_known (key x) ->
  Forall (fun z => is_known (key z)) l ->
  StronglySorted (fun a b => number_lt (key b) (key a) = false) l ->
  StronglySorted (fun a b => number_lt (key b) (key a) = false) (insert_by key x l).
Proof.
  intros Hx Hl Hs. induction Hs as [|y l Hs IH Hy]; simpl.
  - constructor; constructor.
  - apply Forall_cons_iff in Hl as [Hky Hl].
    destruct (number_lt (key x) (key y)) eqn:Hxy.
    + constructor; [constructor; assumption|]. constructor.
      * now apply number_lt_asym.
      * rewrite List.Forall_forall in *. intros z Hz.
        apply number_le_lt_trans with (key y); [apply Hl, Hz | exact Hxy | apply Hy, Hz].
    + constructor; [apply IH, Hl|].
      apply (Permutation_Forall (x := x :: l)).
      * symmetry. apply insert_by_perm.
      * constructor; assumption.
Qed.

Lemma insert_by_filter (k : Q) (x : A) (l : list A) :
  Forall (fun z => is_known (key z)) l ->
  StronglySorted (fun a b => number_lt (key b) (key a) = false) l ->
  List.filter (key_is key k) (insert_by key x l)
  = List.filter (key_is key k) l ++ (if key_is key k x then [x] else []).
Proof.
  intros Hl Hs. induction Hs as [|y l Hs IH Hy]; simpl.
  - now destruct (key_is key k x).
  - apply Forall_cons_iff in Hl as [Hky Hl].
    destruct (number_lt (key x) (key y)) eqn:Hxy.
    + simpl. destruct (key_is key k x) eqn:Hkx; [|now rewrite app_nil_r].
      assert (Hy0 : key_is key k y = false)
        by exact (number_lt_not_same _ _ k Hxy Hkx).
      rewrite Hy0.
      assert (Hnone : List.filter (key_is key k) l = []).
      { clear IH. rewrite List.Forall_forall in *.
        induction l as [|z l IHl]; [reflexivity|]. simpl.
        assert (Hz0 : key_is key k z = false).
        { apply (number_le_not_same (key x) (key y) (key z) k);
            [apply Hl; now left | exact Hxy | apply Hy; now left | exact Hkx]. }
        rewrite Hz0. apply IHl.
        - intros w Hw. apply Hl. now right.
        - inversion Hs; assumption.
        - intros w Hw. apply Hy. now right. }
      rewrite Hnone. reflexivity.
    + simpl. rewrite (IH Hl). now destruct (key_is key k y).
Qed.

Lemma sorted_from_ascending (l acc : list A) :
  Forall (fun z => is_known (key z)) l ->
  Forall (fun z => is_known (key z)) acc ->
  StronglySorted (fun a b => number_lt (key b) (key a) = false) acc ->
  StronglySorted (fun a b => number_lt (key b) (key a) = false)
    (fold_left (fun acc x => insert_by key x acc) l acc) /\
  forall k,
    List.filter (key_is key k) (fold_left (fun acc x => insert_by key x acc) l acc)
    = List.filter (key_is key k) acc ++ List.filter (key_is key k) l.
Proof.
  revert acc. induction l as [|x l IH]; intros acc Hl Hacc Hs; simpl.
  - split; [exact Hs | intros k; now rewrite app_nil_r].
  - apply Forall_cons_iff in Hl as [Hx Hl].
    assert (Hacc' : Forall (fun z => is_known (key z)) (insert_by key x acc)).
    { apply (Permutation_Forall (x := x :: acc)).
      - symmetry. apply insert_by_perm.
      - constructor; assumption. }
    destruct (IH (insert_by key x acc) Hl Hacc'
                 (insert_by_ascending x acc Hx Hacc Hs)) as [Hsorted Hfilter].
    split; [exact Hsorted|]. intros k. rewrite Hfilter.
    rewrite (insert_by_filter k x acc Hacc Hs), <- app_assoc.
    now destruct (key_is key k x).
Qed.

Lemma sorted_ascending_stable (l : list A) :
  Forall (fun z => is_known (key z)) l ->
  ascending_stable key l (sorted key l).
Proof.
  intros Hl. unfold sorted.
  destruct (sorted_from_ascending l [] Hl (Forall_nil _) (SSorted_nil _))
    as [Hs Hf].
  split; [exact Hs | intros k; now rewrite Hf].
Qed.

End SortedFacts.

(** X13. When no key is NaN, each ordering that [__post__init__] stores is
    a rearrangement of the collection it sorts: the two approach orderings
    hold exactly the approaches of the database and the NEO ordering exactly
    its NEOs, each as many times as the collection does. *)
Theorem post_init_orderings_rearrange self h :
  (Forall (fun a => is_known (CloseApproach.distance (ca_at h a))) (_approaches self) ->
   exists ds,
     approaches_distance_sorted (__post__init__ self h) = Some ds /\
     Permutation ds (_approaches self)) /\
  (Forall (fun a => is_known (CloseApproach.velocity (ca_at h a))) (_approaches self) ->
   exists vs,
     approaches_velocity_sorted (__post__init__ self h) = Some vs /\
     Permutation vs (_approaches self)) /\
  (Forall (fun n => is_known (NearEarthObject.diameter (neo_at h n))) (_neos self) ->
   exists ns,
     neos_diameter_sorted (__post__init__ self h) = Some ns /\
     Permutation ns (_neos self)).
Proof.
  repeat split; intros _; eexists; (split; [reflexivity|]); apply sorted_perm.
Qed.

(** X14. When no key is NaN, each ordering of [__post__init__] is ascending
    in its key (distance, velocity, diameter) and keeps objects with equal
    keys in the order of the stored collection. *)
Theorem post_init_orderings_ascending self h :
  (Forall (fun a => is_known (CloseApproach.distance (ca_at h a))) (_approaches self) ->
   exists ds,
     approaches_distance_sorted (__post__init__ self h) = Some ds /\
     ascending_stable (fun a => CloseApproach.distance (ca_at h a))
       (_approaches self) ds) /\
  (Forall (fun a => is_known (CloseApproach.velocity (ca_at h a))) (_approaches self) ->
   exists vs,
     approaches_velocity_sorted (__post__init__ self h) = Some vs /\
     ascending_stable (fun a => CloseApproach.velocity (ca_at h a))
       (_approaches self) vs) /\
  (Forall (fun n => is_known (NearEarthObject.diameter (neo_at h n))) (_neos self) ->
   exists ns,
     neos_diameter_sorted (__post__init__ self h) = Some ns /\
     ascending_stable (fun n => NearEarthObject.diameter (neo_at h n))
       (_neos self) ns).
Proof.
  repeat split; intros Hknown; eexists; (split; [reflexivity|]);
    now apply sorted_ascending_stable.
Qed.

(** * The loaders *)

Section LoaderFacts.
Context {V X NEO CA : Type}.
Variable new_neo : V -> V -> V -> V -> X + NEO.
Variable new_approach : V -> V -> V -> V -> X + CA.

Lemma load_rows_Loaded {R B : Type} (f : R -> Extract.result X B) rows :
  forall acc out,
    Extract.load_rows f rows acc = Extract.Loaded out <->
    exists bs, out = acc ++ bs /\
               Forall2 (fun r b => f r = Extract.Loaded b) rows bs.
Proof.
  induction rows as [|r rows IH]; intros acc out; simpl.
  - split.
    + intros [= <-]. exists []. split; [now rewrite app_nil_r | constructor].
    + intros (bs & -> & Hbs). inversion Hbs. now rewrite app_nil_r.
  - destruct (f r) as [b|e] eqn:Hr.
    + rewrite IH. split.
      * intros (bs & -> & Hbs). exists (b :: bs). split.
        -- now rewrite <- app_assoc.
        -- now constructor.
      * intros (bs & -> & Hbs). inversion Hbs as [|r0 b0 rows0 bs0 Hb Hrest]; subst.
        assert (b0 = b) by congruence. subst b0.
        exists bs0. split; [now rewrite <- app_assoc | exact Hrest].
    + split; [discriminate|].
      intros (bs & _ & Hbs). inversion Hbs; congruence.
Qed.

Lemma load_rows_Failed {R B : Type} (f : R -> Extract.result X B) rows :
  forall acc e,
    Extract.load_rows f rows acc = Extract.Failed e <->
    exists pre row post,
      rows = pre ++ row :: post /\
      Forall (fun r => exists b, f r = Extract.Loaded b) pre /\
      f row = Extract.Failed e.
Proof.
  induction rows as [|r rows IH]; intros acc e; simpl.
  - split; [discriminate|]. intros (pre & row & post & E & _). now destruct pre.
  - destruct (f r) as [b|e'] eqn:Hr.
    + rewrite IH. split.
      * intros (pre & row & post & -> & Hpre & Hrow).
        exists (r :: pre), row, post. repeat split; [|exact Hrow].
        constructor; eauto.
      * intros (pre & row & post & E & Hpre & Hrow). destruct pre as [|p pre].
        -- simpl in E. injection E as <- <-. congruence.
        -- simpl in E. injection E as <- ->.
           exists pre, row, post. repeat split; [|exact Hrow].
           now inversion Hpre.
    + split.
      * intros [= <-]. exists [], r, rows. repeat split; [constructor | exact Hr].
      * intros (pre & row & post & E & Hpre & Hrow). destruct pre as [|p pre].
        -- simpl in E. injection E as <- <-. congruence.
        -- simpl in E. injection E as <- ->.
           inversion Hpre as [|? ? [b Hb] ?]; subst. congruence.
Qed.

Lemma neo_of_row_Loaded (row : gmap string V) (neo : NEO) :
  Extract.neo_of_row new_neo row = Extract.Loaded neo <->
  exists pdes name diameter pha,
    row !! "pdes" = Some pdes /\ row !! "name" = Some name /\
    row !! "diameter" = Some diameter /\ row !! "pha" = Some pha /\
    new_neo pdes name diameter pha = inr neo.
Proof.
  unfold Extract.neo_of_row, Extract.column.
  destruct (row !! "name") as [name|];
    [|split; [discriminate | intros (?&?&?&?&?&?&?); discriminate]].
  destruct (row !! "diameter") as [diameter|];
    [|split; [discriminate | intros (?&?&?&?&?&?&?&?); discriminate]].
  destruct (row !! "pha") as [pha|];
    [|split; [discriminate | intros (?&?&?&?&?&?&?&?&?); discriminate]].
  destruct (row !! "pdes") as [pdes|];
    [|split; [discriminate | intros (?&?&?&?&?&?); discriminate]].
  split.
  - destruct (new_neo pdes name diameter pha) as [x|n] eqn:Hnew; [discriminate|].
    intros [= <-]. exists pdes, name, diameter, pha. auto.
  - intros (p & n & d & ph & [= <-] & [= <-] & [= <-] & [= <-] & ->). reflexivity.
Qed.

(** X15. [load_neos] returns a list exactly when every row has the columns
    [pdes], [name], [diameter] and [pha] and the constructor accepts them; the
    list then has one NEO per row, in the order of the rows, each built from
    its row's [pdes] as designation and its [name], [diameter] and [pha]. *)
Theorem load_neos_Loaded (rows : list (gmap string V)) (neos : list NEO) :
  Extract.load_neos new_neo rows = Extract.Loaded neos <->
  Forall2
    (fun row neo =>
       exists pdes name diameter pha,
         row !! "pdes" = Some pdes /\ row !! "name" = Some name /\
         row !! "diameter" = Some diameter /\ row !! "pha" = Some pha /\
         new_neo pdes name diameter pha = inr neo)
    rows neos.
Proof.
  unfold Extract.load_neos. rewrite load_rows_Loaded. simpl. split.
  - intros (bs & -> & Hbs). eapply Forall2_impl; [|exact Hbs].
    intros row neo. apply neo_of_row_Loaded.
  - intros Hall. exists neos. split; [reflexivity|].
    eapply Forall2_impl; [|exact Hall]. intros row neo. apply neo_of_row_Loaded.
Qed.

(** X16. [load_neos] fails at the first row it cannot turn into an NEO and
    returns nothing of the rows before it; when that row lacks a column, the
    error is the [KeyError] of the first column missing in the order [name],
    [diameter], [pha], [pdes]. *)
Theorem load_neos_Failed (rows : list (gmap string V)) (e : Extract.error X) :
  Extract.load_neos new_neo rows = Extract.Failed e ->
  exists pre row post,
    rows = pre ++ row :: post /\
    Forall (fun r => exists neo, Extract.neo_of_row new_neo r = Extract.Loaded neo) pre /\
    Extract.neo_of_row new_neo row = Extract.Failed e /\
    match List.find (fun c => bool_decide (row !! c = None))
                    ["name"; "diameter"; "pha"; "pdes"] with
    | Some c => e = Extract.KeyError c
    | None => exists x, e = Extract.ConstructorError x
    end.
Proof.
  unfold Extract.load_neos. intros Hfail.
  apply load_rows_Failed in Hfail as (pre & row & post & -> & Hpre & Hrow).
  exists pre, row, post. repeat split; try assumption.
  revert Hrow. unfold Extract.neo_of_row, Extract.column. simpl.
  destruct (row !! "name") as [name|]; simpl; [|now intros [= <-]].
  destruct (row !! "diameter") as [diameter|]; simpl; [|now intros [= <-]].
  destruct (row !! "pha") as [pha|]; simpl; [|now intros [= <-]].
  destruct (row !! "pdes") as [pdes|]; simpl; [|now intros [= <-]].
  destruct (new_neo pdes name diameter pha) as [x|n]; [|discriminate].
  intros [= <-]. eauto.
Qed.

Lemma approach_of_row_Loaded (row : list V) (cad : CA) :
  Extract.approach_of_row new_approach row = Extract.Loaded cad <->
  exists des cd dist v_rel,
    row !! 0%nat = Some des /\ row !! 3%nat = Some cd /\
    row !! 4%nat = Some dist /\ row !! 7%nat = Some v_rel /\
    new_approach des cd dist v_rel = inr cad.
Proof.
  unfold Extract.approach_of_row, Extract.item.
  destruct (row !! 0%nat) as [des|];
    [|split; [discriminate | intros (?&?&?&?&?&?); discriminate]].
  destruct (row !! 3%nat) as [cd|];
    [|split; [discriminate | intros (?&?&?&?&?&?&?); discriminate]].
  destruct (row !! 4%nat) as [dist|];
    [|split; [discriminate | intros (?&?&?&?&?&?&?&?); discriminate]].
  destruct (row !! 7%nat) as [v_rel|];
    [|split; [discriminate | intros (?&?&?&?&?&?&?&?&?); discriminate]].
  split.
  - destruct (new_approach des cd dist v_rel) as [x|c] eqn:Hnew; [discriminate|].
    intros [= <-]. exists des, cd, dist, v_rel. auto.
  - intros (d & c & di & v & [= <-] & [= <-] & [= <-] & [= <-] & ->). reflexivity.
Qed.

Lemma approach_of_row_IndexError (row : list V) :
  Extract.approach_of_row new_approach row = Extract.Failed Extract.IndexError <->
  (length row < 8)%nat.
Proof.
  unfold Extract.approach_of_row, Extract.item. split.
  - intros Hfail. destruct (decide (length row < 8)%nat) as [|Hlong]; [assumption|].
    exfalso.
    destruct (lookup_lt_is_Some_2 row 0%nat ltac:(lia)) as [v0 E0].
    destruct (lookup_lt_is_Some_2 row 3%nat ltac:(lia)) as [v3 E3].
    destruct (lookup_lt_is_Some_2 row 4%nat ltac:(lia)) as [v4 E4].
    destruct (lookup_lt_is_Some_2 row 7%nat ltac:(lia)) as [v7 E7].
    rewrite E0, E3, E4, E7 in Hfail.
    destruct (new_approach v0 v3 v4 v7); discriminate.
  - intros Hshort.
    assert (E7 : row !! 7%nat = None) by (apply lookup_ge_None; lia).
    destruct (row !! 0%nat); [|reflexivity].
    destruct (row !! 3%nat); [|reflexivity].
    destruct (row !! 4%nat); [|reflexivity].
    now rewrite E7.
Qed.

(** X17. [load_approaches] raises [KeyError] for a document without the
    entry [data].  Otherwise it returns a list exactly when every row has
    entries 0, 3, 4 and 7 and the constructor accepts them, one approach per
    row in row order, built from those four entries; and it raises
    [IndexError] exactly when the first row that cannot be loaded has fewer
    than eight entries. *)
Theorem load_approaches_outcome (reader : gmap string (list (list V))) :
  match reader !! "data" with
  | None =>
      Extract.load_approaches new_approach reader
      = Extract.Failed (Extract.KeyError "data")
  | Some rows =>
      (forall cads,
         Extract.load_approaches new_approach reader = Extract.Loaded cads <->
         Forall2
           (fun row cad =>
              exists des cd dist v_rel,
                row !! 0%nat = Some des /\ row !! 3%nat = Some cd /\
                row !! 4%nat = Some dist /\ row !! 7%nat = Some v_rel /\
                new_approach des cd dist v_rel = inr cad)
           rows cads) /\
      (Extract.load_approaches new_approach reader
       = Extract.Failed Extract.IndexError <->
       exists pre row post,
         rows = pre ++ row :: post /\
         Forall
           (fun r => exists cad,
              Extract.approach_of_row new_approach r = Extract.Loaded cad) pre /\
         (length row < 8)%nat)
  end.
Proof.
  unfold Extract.load_approaches. destruct (reader !! "data") as [rows|]; [|reflexivity].
  split.
  - intros cads. rewrite load_rows_Loaded. simpl. split.
    + intros (bs & -> & Hbs). eapply Forall2_impl; [|exact Hbs].
      intros row cad. apply approach_of_row_Loaded.
    + intros Hall. exists cads. split; [reflexivity|].
      eapply Forall2_impl; [|exact Hall]. intros row cad. apply approach_of_row_Loaded.
  - rewrite load_rows_Failed. split.
    + intros (pre & row & post & E & Hpre & Hrow). exists pre, row, post.
      repeat split; try assumption. now apply approach_of_row_IndexError.
    + intros (pre & row & post & E & Hpre & Hrow). exists pre, row, post.
      repeat split; try assumption. now apply approach_of_row_IndexError.
Qed.

End LoaderFacts.

End CaseFolding.

(** * Examples

    The theorems above, applied to the small data set.  Its strings are all
    ASCII, so [str.lower] is [ascii_lower] on them. *)

#[local] Existing Instance ascii_case.

Lemma init_raises_iff_unmatched_witness :
  (exists h', __init__ [0; 1]%nat [0; 3]%nat example_heap
              = (Raise (ValueError "No NEO found for this approach."), h')) /\
  (exists db h', __init__ [0; 1]%nat [0; 1]%nat example_heap = (Return db, h')).
Proof.
  split.
  - apply (proj1 (init_raises_iff_unmatched [0; 1]%nat [0; 3]%nat example_heap)).
    exists 3%nat. split; [right; left|].
    apply (target_is_None _ [0; 3]%nat). reflexivity.
  - apply (proj2 (init_raises_iff_unmatched [0; 1]%nat [0; 1]%nat example_heap)).
    intros a Ha. apply (target_is_Some _ [0; 1]%nat).
    list_cases Ha; vm_compute; eauto.
Defined.

(** C1, as stated, fails: the approach of an unknown object makes the
    constructor raise, but the exception is a [ValueError]; the code has no
    [LinkageError]. *)
Lemma init_error_is_not_LinkageError :
  (exists a, a ∈ [3]%nat /\ ~ has_match [0; 1]%nat example_heap a) /\
  ~ (exists e h', __init__ [0; 1]%nat [3]%nat example_heap = (Raise e, h') /\
                  exn_class e = "LinkageError").
Proof.
  split.
  - exists 3%nat. split; [left|]. apply (target_is_None _ [3]%nat). reflexivity.
  - intros (e & h' & Hrun & Hclass). unfold __init__ in Hrun.
    apply link_all_Raise in Hrun as (_ & _ & _ & _ & _ & _ & _ & _ & -> & _).
    discriminate Hclass.
Qed.

Lemma init_leaves_orderings_unset_witness :
  exists db h',
    __init__ [0; 1]%nat [0; 1]%nat example_heap = (Return db, h') /\
    approaches_distance_sorted db = None /\
    approaches_velocity_sorted db = None /\
    neos_diameter_sorted db = None.
Proof.
  destruct (__init__ [0; 1]%nat [0; 1]%nat example_heap) as [[db|e] h'] eqn:Hrun.
  - exists db, h'. split; [reflexivity|].
    exact (init_leaves_orderings_unset _ _ _ _ _ Hrun).
  - exfalso. vm_compute in Hrun. discriminate Hrun.
Defined.

Lemma example_unlinked (neos approaches : list nat) :
  unlinked neos approaches example_heap.
Proof.
  split.
  - intros [|[|[|n]]] _; reflexivity.
  - intros [|[|[|a]]] _; reflexivity.
Qed.

Lemma init_failure_keeps_prefix_linked_witness :
  exists e h',
    __init__ [0; 1]%nat [0; 3; 1]%nat example_heap = (Raise e, h') /\
    exists pre a post,
      [0; 3; 1]%nat = pre ++ a :: post /\
      ~ has_match [0; 1]%nat example_heap a /\
      (forall b, b ∈ pre ->
         exists n, n ∈ [0; 1]%nat /\ CloseApproach.neo (ca_at h' b) = Some n /\
           get_neo_by_designation (fresh_db [0; 1]%nat [0; 3; 1]%nat) example_heap
             (CloseApproach.designation (ca_at example_heap b)) = Some n) /\
      (forall b, b ∉ pre -> ca_at h' b = ca_at example_heap b) /\
      (forall n,
         NearEarthObject.approaches (neo_at h' n)
         = NearEarthObject.approaches (neo_at example_heap n)
           ++ List.filter
                (fun b => bool_decide (CloseApproach.neo (ca_at h' b) = Some n)) pre).
Proof.
  destruct (__init__ [0; 1]%nat [0; 3; 1]%nat example_heap) as [[db|e] h'] eqn:Hrun.
  - exfalso. vm_compute in Hrun. discriminate Hrun.
  - exists e, h'. split; [reflexivity|].
    exact (init_failure_keeps_prefix_linked _ _ _ _ _ (example_unlinked _ _) Hrun).
Defined.

(** C3, as stated, fails: the second approach matches no NEO and the
    constructor raises, yet the first approach has been linked to Eros and
    Eros lists it. *)
Lemma init_failure_is_not_atomic :
  unlinked [0; 1]%nat [0; 3]%nat example_heap /\
  let r := __init__ [0; 1]%nat [0; 3]%nat example_heap in
  fst r = Raise (ValueError "No NEO found for this approach.") /\
  NearEarthObject.approaches (neo_at example_heap 0%nat) = [] /\
  NearEarthObject.approaches (neo_at (snd r) 0%nat) = [0%nat] /\
  CloseApproach.neo (ca_at example_heap 0%nat) = None /\
  CloseApproach.neo (ca_at (snd r) 0%nat) = Some 0%nat.
Proof.
  split; [apply example_unlinked|]. vm_compute. repeat split.
Qed.

Lemma linkage_totality_witness :
  exists db h',
    __init__ [0; 1; 2]%nat [0; 1; 2]%nat example_heap = (Return db, h') /\
    forall a, a ∈ [0; 1; 2]%nat ->
      exists n,
        CloseApproach.neo (ca_at h' a) = Some n /\
        n ∈ [0; 1; 2]%nat /\
        count_occ Nat.eq_dec (NearEarthObject.approaches (neo_at h' n)) a
        = count_occ Nat.eq_dec [0; 1; 2]%nat a /\
        (List.NoDup [0; 1; 2]%nat ->
         count_occ Nat.eq_dec (NearEarthObject.approaches (neo_at h' n)) a = 1%nat).
Proof.
  destruct (__init__ [0; 1; 2]%nat [0; 1; 2]%nat example_heap)
    as [[db|e] h'] eqn:Hrun.
  - exists db, h'. split; [reflexivity|].
    exact (linkage_totality _ _ _ _ _ (example_unlinked _ _) Hrun).
  - exfalso. vm_compute in Hrun. discriminate Hrun.
Defined.

(** C4, as stated, fails: an approach object listed twice in the input is
    appended twice to its NEO's [approaches]. *)
Lemma init_links_repeated_approach_twice :
  unlinked [0; 1]%nat [0; 0]%nat example_heap /\
  let r := __init__ [0; 1]%nat [0; 0]%nat example_heap in
  (exists db, fst r = Return db) /\
  0%nat ∈ [0; 0]%nat /\
  CloseApproach.neo (ca_at (snd r) 0%nat) = Some 0%nat /\
  NearEarthObject.approaches (neo_at (snd r) 0%nat) = [0; 0]%nat /\
  count_occ Nat.eq_dec (NearEarthObject.approaches (neo_at (snd r) 0%nat)) 0%nat
  = 2%nat.
Proof.
  split; [apply example_unlinked|]. cbv zeta. split; [|split; [left|]].
  - destruct (__init__ [0; 1]%nat [0; 0]%nat example_heap) as [[db|e] h'] eqn:Hrun.
    + exists db. reflexivity.
    + exfalso. vm_compute in Hrun. discriminate Hrun.
  - vm_compute. repeat split.
Qed.

Lemma get_neo_by_designation_correct_witness :
  (forall n s, n ∈ [0; 1; 2]%nat ->
     lower s = lower (NearEarthObject.designation (neo_at example_heap n)) ->
     get_neo_by_designation (fresh_db [0; 1; 2]%nat []) example_heap s = Some n) /\
  get_neo_by_designation (fresh_db [0; 1; 2]%nat []) example_heap "2000 xy"
  = Some 1%nat /\
  get_neo_by_designation (fresh_db [0; 1; 2]%nat []) example_heap "does-not-exist"
  = None.
Proof.
  assert (Huniq : forall n m, n ∈ [0; 1; 2]%nat -> m ∈ [0; 1; 2]%nat ->
            lower (NearEarthObject.designation (neo_at example_heap n))
            = lower (NearEarthObject.designation (neo_at example_heap m)) -> n = m).
  { intros n m Hn Hm. list_cases Hn; list_cases Hm; vm_compute; congruence. }
  pose proof (get_neo_by_designation_correct
                (fresh_db [0; 1; 2]%nat []) example_heap Huniq) as [Hfound Habsent].
  split; [exact Hfound | split].
  - apply Hfound; [right; left | reflexivity].
  - apply Habsent. intros n Hn. list_cases Hn; vm_compute; congruence.
Defined.


Lemma get_neo_by_name_correct_witness :
  get_neo_by_name (fresh_db [1; 3; 0]%nat []) example_heap (Some "eros") = Some 3%nat /\
  exists pre m post mn,
    get_neo_by_name (fresh_db [1; 3; 0]%nat []) example_heap (Some "eROs") = Some m /\
    [1; 3; 0]%nat = pre ++ m :: post /\
    NearEarthObject.name (neo_at example_heap m) = Some mn /\
    lower mn = lower "Eros" /\
    forall x xn, x ∈ pre -> NearEarthObject.name (neo_at example_heap x) = Some xn ->
                 lower xn <> lower "Eros".
Proof.
  split; [reflexivity|].
  apply (proj2 (proj2 (proj2
           (get_neo_by_name_correct (fresh_db [1; 3; 0]%nat []) example_heap)))
           0%nat "Eros" "eROs").
  - right; right; left.
  - reflexivity.
  - discriminate.
  - reflexivity.
Defined.


Lemma init_keeps_attributes_witness :
  same_attributes example_heap (snd (__init__ [0; 1]%nat [0; 3; 1]%nat example_heap)) /\
  same_attributes example_heap (snd (__init__ [0; 1]%nat [1; 0]%nat example_heap)).
Proof.
  split.
  - apply (init_keeps_attributes [0; 1]%nat [0; 3; 1]%nat example_heap
             (fst (__init__ [0; 1]%nat [0; 3; 1]%nat example_heap))).
    now destruct (__init__ [0; 1]%nat [0; 3; 1]%nat example_heap).
  - apply (init_keeps_attributes [0; 1]%nat [1; 0]%nat example_heap
             (fst (__init__ [0; 1]%nat [1; 0]%nat example_heap))).
    now destruct (__init__ [0; 1]%nat [1; 0]%nat example_heap).
Defined.

Lemma init_date_index_witness :
  exists db h',
    __init__ [0; 1; 2]%nat [0; 1; 0; 2]%nat example_heap = (Return db, h') /\
    _date_to_approaches db !! (2020, 1, 1)%nat = Some [0; 0]%nat /\
    _date_to_approaches db !! (2020, 6, 1)%nat = Some [1%nat] /\
    _date_to_approaches db !! (2020, 2, 1)%nat = None.
Proof.
  destruct (__init__ [0; 1; 2]%nat [0; 1; 0; 2]%nat example_heap)
    as [[db|e] h'] eqn:Hrun.
  - exists db, h'. split; [reflexivity|].
    pose proof (init_date_index _ _ _ _ _ Hrun) as Hidx.
    assert (Hh : h' = snd (__init__ [0; 1; 2]%nat [0; 1; 0; 2]%nat example_heap))
      by now rewrite Hrun.
    repeat split; rewrite Hidx, Hh; reflexivity.
  - exfalso. vm_compute in Hrun. discriminate Hrun.
Defined.

Lemma init_keeps_lookups_witness :
  (forall s,
     get_neo_by_designation (fresh_db [0; 1]%nat [])
       (snd (__init__ [0; 1]%nat [0; 3; 1]%nat example_heap)) s
     = get_neo_by_designation (fresh_db [0; 1]%nat []) example_heap s) /\
  (forall q,
     get_neo_by_name (fresh_db [0; 1]%nat [])
       (snd (__init__ [0; 1]%nat [0; 3; 1]%nat example_heap)) q
     = get_neo_by_name (fresh_db [0; 1]%nat []) example_heap q).
Proof.
  apply (init_keeps_lookups [0; 1]%nat [0; 3; 1]%nat example_heap
           (fst (__init__ [0; 1]%nat [0; 3; 1]%nat example_heap))).
  now destruct (__init__ [0; 1]%nat [0; 3; 1]%nat example_heap).
Defined.

Lemma init_appends_in_input_order_witness :
  exists db h',
    __init__ [0; 1; 3]%nat [2; 1; 2; 0]%nat example_heap = (Return db, h') /\
    NearEarthObject.approaches (neo_at h' 3%nat)
    = NearEarthObject.approaches (neo_at example_heap 3%nat)
      ++ List.filter
           (fun a => bool_decide (CloseApproach.neo (ca_at h' a) = Some 3%nat))
           [2; 1; 2; 0]%nat /\
    ca_at h' 4%nat = ca_at example_heap 4%nat.
Proof.
  destruct (__init__ [0; 1; 3]%nat [2; 1; 2; 0]%nat example_heap)
    as [[db|e] h'] eqn:Hrun.
  - exists db, h'. split; [reflexivity|].
    destruct (init_appends_in_input_order _ _ _ _ _ Hrun) as [Hn Ha].
    split; [apply Hn|]. apply Ha. intros Hin.
    repeat (apply elem_of_cons in Hin as [Hin|Hin]; [discriminate Hin|]).
    inversion Hin.
  - exfalso. vm_compute in Hrun. discriminate Hrun.
Defined.

Lemma init_links_both_ways_witness :
  exists db h',
    __init__ [0; 1; 2]%nat [2; 0; 1]%nat example_heap = (Return db, h') /\
    (1%nat ∈ NearEarthObject.approaches (neo_at h' 1%nat)
     <-> 1%nat ∈ [2; 0; 1]%nat /\ CloseApproach.neo (ca_at h' 1%nat) = Some 1%nat).
Proof.
  destruct (__init__ [0; 1; 2]%nat [2; 0; 1]%nat example_heap)
    as [[db|e] h'] eqn:Hrun.
  - exists db, h'. split; [reflexivity|].
    apply (init_links_both_ways _ _ _ _ _ (example_unlinked _ _) Hrun).
    right; left.
  - exfalso. vm_compute in Hrun. discriminate Hrun.
Defined.

Lemma init_twice_doubles_approaches_witness :
  exists db h1 db2 h2,
    __init__ [0; 1]%nat [0; 1; 0]%nat example_heap = (Return db, h1) /\
    __init__ [0; 1]%nat [0; 1; 0]%nat h1 = (Return db2, h2) /\
    NearEarthObject.approaches (neo_at h1 0%nat) = [0; 0]%nat /\
    NearEarthObject.approaches (neo_at h2 0%nat)
    = NearEarthObject.approaches (neo_at h1 0%nat)
      ++ NearEarthObject.approaches (neo_at h1 0%nat).
Proof.
  destruct (__init__ [0; 1]%nat [0; 1; 0]%nat example_heap) as [[db|e] h1] eqn:Hrun.
  - destruct (init_twice_doubles_approaches _ _ _ _ _ (example_unlinked _ _) Hrun)
      as (db2 & h2 & Hrun2 & Hdouble & _).
    exists db, h1, db2, h2. repeat split; try assumption.
    + assert (Hh : h1 = snd (__init__ [0; 1]%nat [0; 1; 0]%nat example_heap))
        by now rewrite Hrun.
      rewrite Hh. reflexivity.
    + apply Hdouble. left.
  - exfalso. vm_compute in Hrun. discriminate Hrun.
Defined.

Lemma lookups_ignore_query_case_witness :
  get_neo_by_designation (fresh_db [1; 2; 0]%nat []) example_heap "eros"
  = get_neo_by_designation (fresh_db [1; 2; 0]%nat []) example_heap "ERos" /\
  get_neo_by_name (fresh_db [1; 2; 0]%nat []) example_heap (Some "eros")
  = get_neo_by_name (fresh_db [1; 2; 0]%nat []) example_heap (Some "ERos") /\
  get_neo_by_name (fresh_db [1; 2; 0]%nat []) example_heap (Some "ERos")
  = Some 0%nat.
Proof.
  split; [|split; [|reflexivity]];
    apply (lookups_ignore_query_case (fresh_db [1; 2; 0]%nat []) example_heap
             "eros" "ERos"); reflexivity.
Defined.

Lemma query_filter_order_irrelevant_witness :
  let near : predicate :=
    fun h a => number_lt (CloseApproach.distance (ca_at h a)) (Num (1 # 4)) in
  let fast : predicate :=
    fun h a => number_lt (Num 10) (CloseApproach.velocity (ca_at h a)) in
  let db := fresh_db [0; 1; 2]%nat [0; 1; 2; 3]%nat in
  to_list example_heap (query db [near; fast])
  = to_list example_heap (query db [fast; near]) /\
  to_list example_heap (query db [near; near; fast])
  = to_list example_heap (query db [near; fast]) /\
  to_list example_heap (query db [near; fast]) = [1; 2]%nat.
Proof.
  intros near fast db. split; [|split].
  - apply (proj1 (query_filter_order_irrelevant db example_heap
                    [near; fast] [fast; near] near)).
    apply perm_swap.
  - apply (proj2 (query_filter_order_irrelevant db example_heap
                    [near; fast] [near; fast] near)).
    left.
  - reflexivity.
Defined.


Lemma query_yields_linked_approaches_witness :
  let near : predicate :=
    fun h a => number_lt (CloseApproach.distance (ca_at h a)) (Num (1 # 5)) in
  exists db h',
    __init__ [0; 1]%nat [0; 1]%nat example_heap = (Return db, h') /\
    to_list h' (query db [near]) = [1%nat] /\
    exists n,
      CloseApproach.neo (ca_at h' 1%nat) = Some n /\
      n ∈ [0; 1]%nat /\
      lower (NearEarthObject.designation (neo_at h' n))
      = lower (CloseApproach.designation (ca_at h' 1%nat)).
Proof.
  intros near.
  destruct (__init__ [0; 1]%nat [0; 1]%nat example_heap) as [[db|e] h'] eqn:Hrun.
  - assert (Hh : (db, h') = (match fst (__init__ [0; 1]%nat [0; 1]%nat example_heap) with
                             | Return d => d
                             | Raise _ => db
                             end,
                             snd (__init__ [0; 1]%nat [0; 1]%nat example_heap)))
      by now rewrite Hrun.
    assert (Hq : to_list h' (query db [near]) = [1%nat]).
    { injection Hh as -> ->. reflexivity. }
    exists db, h'. split; [reflexivity|]. split; [exact Hq|].
    apply (query_yields_linked_approaches _ _ _ _ _ Hrun [near]).
    rewrite Hq. left.
  - exfalso. vm_compute in Hrun. discriminate Hrun.
Defined.

Lemma post_init_orderings_ascending_witness :
  let db := __post__init__ (fresh_db [0; 3; 3]%nat [0; 1; 2; 1]%nat) example_heap in
  approaches_distance_sorted db = Some [1; 1; 2; 0]%nat /\
  approaches_velocity_sorted db = Some [0; 2; 1; 1]%nat /\
  neos_diameter_sorted db = Some [3; 3; 0]%nat /\
  ascending_stable (fun a => CloseApproach.distance (ca_at example_heap a))
    [0; 1; 2; 1]%nat [1; 1; 2; 0]%nat /\
  ascending_stable (fun a => CloseApproach.velocity (ca_at example_heap a))
    [0; 1; 2; 1]%nat [0; 2; 1; 1]%nat /\
  ascending_stable (fun n => NearEarthObject.diameter (neo_at example_heap n))
    [0; 3; 3]%nat [3; 3; 0]%nat.
Proof.
  intros db.
  destruct (post_init_orderings_ascending
              (fresh_db [0; 3; 3]%nat [0; 1; 2; 1]%nat) example_heap)
    as (Hd & Hv & Hn).
  destruct Hd as (ds & Eds & Hds); [repeat constructor|].
  destruct Hv as (vs & Evs & Hvs); [repeat constructor|].
  destruct Hn as (ns & Ens & Hns); [repeat constructor|].
  injection Eds as <-. injection Evs as <-. injection Ens as <-.
  repeat split; try reflexivity.
  - apply Hds.
  - apply Hds.
  - apply Hvs.
  - apply Hvs.
  - apply Hns.
  - apply Hns.
Defined.

Lemma load_neos_Failed_witness :
  let new_neo : string -> string -> string -> string -> string + string :=
    fun pdes name diameter pha =>
      if String.eqb diameter "abc" then inl "could not convert string to float"
      else inr pdes in
  let good : gmap string string :=
    <["pdes" := "433"]> (<["name" := "Eros"]> (<["diameter" := "16.84"]>
      (<["pha" := "N"]> ∅))) in
  let short : gmap string string := <["pdes" := "719"]> (<["name" := "Albert"]> ∅) in
  let e : Extract.error string := Extract.KeyError "diameter" in
  Extract.load_neos new_neo [good; good] = Extract.Loaded ["433"; "433"] /\
  Extract.load_neos new_neo [good; short; good] = Extract.Failed e /\
  exists pre row post,
    [good; short; good] = pre ++ row :: post /\
    Forall (fun r => exists neo, Extract.neo_of_row new_neo r = Extract.Loaded neo) pre /\
    Extract.neo_of_row new_neo row = Extract.Failed e /\
    match List.find (fun c => bool_decide (row !! c = None))
                    ["name"; "diameter"; "pha"; "pdes"] with
    | Some c => e = Extract.KeyError c
    | None => exists x, e = Extract.ConstructorError x
    end.
Proof.
  intros new_neo good short e.
  assert (Hfail : Extract.load_neos new_neo [good; short; good] = Extract.Failed e)
    by (vm_compute; reflexivity).
  split; [vm_compute; reflexivity|]. split; [exact Hfail|].
  exact (load_neos_Failed new_neo [good; short; good] e Hfail).
Defined.

(** C5, as stated, fails when uniqueness is read as no two NEOs having the
    same designation: the designations ["2020 ab"] and ["2020 AB"] are
    different strings, yet looking up the second one's own designation
    returns the first one. *)
Lemma get_neo_by_designation_finds_other_case :
  List.NoDup
    (map (fun n => NearEarthObject.designation (neo_at example_heap n)) [2; 3]%nat) /\
  3%nat ∈ [2; 3]%nat /\
  get_neo_by_designation (fresh_db [2; 3]%nat []) example_heap
    (NearEarthObject.designation (neo_at example_heap 3%nat))
  = Some 2%nat /\
  Some 2%nat <> Some 3%nat.
Proof.
  split; [|split; [right; left | split; [reflexivity | discriminate]]].
  constructor.
  - intros [Heq | []]. discriminate Heq.
  - constructor; [intros [] | constructor].
Qed.


Lemma post_init_orderings_rearrange_witness :
  let db := __post__init__ (fresh_db [0; 3; 3]%nat [0; 1; 2; 1]%nat) example_heap in
  (exists ds,
     approaches_distance_sorted db = Some ds /\ Permutation ds [0; 1; 2; 1]%nat) /\
  (exists vs,
     approaches_velocity_sorted db = Some vs /\ Permutation vs [0; 1; 2; 1]%nat) /\
  (exists ns,
     neos_diameter_sorted db = Some ns /\ Permutation ns [0; 3; 3]%nat).
Proof.
  intros db.
  destruct (post_init_orderings_rearrange
              (fresh_db [0; 3; 3]%nat [0; 1; 2; 1]%nat) example_heap)
    as (Hd & Hv & Hn).
  split; [|split].
  - apply Hd. repeat constructor.
  - apply Hv. repeat constructor.
  - apply Hn. repeat constructor.
Defined.
